(** * cpp.react: turn manager, turn object and event-stream nodes

    A shallow embedding of
    - [TurnBase] and [ExclusiveTurnManager] (engine base header), and
    - [EventStreamNode], [EventSourceNode], the fused event ops and
      [EventOpNode] (react/graph/EventStreamNodes.h),
    followed by the properties of these classes.

    Objects that the C++ code reaches through pointers live in finite maps
    from addresses to records, so that aliasing is kept.  Every block that
    the source runs under a mutex is one function from store to store. *)

From Stdlib Require Import ZArith.
From stdpp Require Import gmap list strings.

Open Scope Z_scope.

Local Set Warnings "-register-all,-clear-no-such-hyp".

(** Addresses of [ExclusiveTurn] objects and of [BlockingCondition]
    objects owned by callers of [TryMerge]. *)
Abbreviation TurnPtr := nat (only parsing).
Abbreviation CondPtr := nat (only parsing).

(* ===================================================================== *)
(** ** BlockingCondition *)
(* ===================================================================== *)

Module BlockingCondition.

(** Modelled from the spec: class [BlockingCondition] of
    react/common/Concurrency.h, which is not among the sources.  The spec
    speaks of a turn that "blocks", of a tail turn that is "still blocked",
    of a caller that "blocks until woken" and of "wake": a condition is a
    flag, initially clear, that [Block] sets and [Unblock] clears;
    [RunIfBlocked] runs its argument only while the flag is set and reports
    whether it did; a thread in [WaitForUnblock] proceeds only once the
    flag is clear. *)
Record t := mk { blocked_ : bool }.

Definition init : t := mk false.

Definition Block (c : t) : t := mk true.

Definition Unblock (c : t) : t := mk false.

Definition IsBlocked (c : t) : bool := blocked_ c.

Definition RunIfBlocked {S : Type} (c : t) (func : S -> S) (s : S) : bool * S :=
  if blocked_ c then (true, func s) else (false, s).

(** [true] when a thread calling [WaitForUnblock] gets through. *)
Definition WaitForUnblock (c : t) : bool := negb (blocked_ c).

End BlockingCondition.

(* ===================================================================== *)
(** ** ExclusiveTurnManager::ExclusiveTurn *)
(* ===================================================================== *)

Module ExclusiveTurn.

(** [merged_] pairs each input closure with the address of its caller's
    condition.  A closure [std::function<void()>] acts on the state of the
    host program, of type [World].

    An address with no object in the store stands for a dangling pointer,
    whose use the source leaves undefined: a method called through it
    changes nothing, [TryMerge] and [WaitForUnblock] answer [false]. *)
Record t (World : Type) := mk {
  isMergeable_    : bool;
  successor_      : option TurnPtr;
  merged_         : list ((World -> World) * CondPtr);
  blockCondition_ : BlockingCondition.t
}.
Arguments mk {World}.
Arguments isMergeable_ {World}.
Arguments successor_ {World}.
Arguments merged_ {World}.
Arguments blockCondition_ {World}.

(** The objects the turn manager points into: the turns, and the
    conditions that live on the stacks of threads inside [TryMerge]. *)
Record Store (World : Type) := mkStore {
  turns : gmap nat (t World);
  conds : gmap nat BlockingCondition.t
}.
Arguments mkStore {World}.
Arguments turns {World}.
Arguments conds {World}.

Section Methods.
Context {World : Type}.

(** [ExclusiveTurn(TurnFlagsT flags)].  The constant
    [enable_input_merging] is declared outside the sources and is taken
    as a parameter. *)
Definition ctor (enable_input_merging flags : Z) : t World :=
  mk (negb (Z.land flags enable_input_merging =? 0)) None [] BlockingCondition.init.

Definition set_successor (p : option TurnPtr) (tr : t World) : t World :=
  mk (isMergeable_ tr) p (merged_ tr) (blockCondition_ tr).

Definition set_blockCondition (c : BlockingCondition.t) (tr : t World) : t World :=
  mk (isMergeable_ tr) (successor_ tr) (merged_ tr) c.

Definition emplace_back (e : (World -> World) * CondPtr) (tr : t World) : t World :=
  mk (isMergeable_ tr) (successor_ tr) (merged_ tr ++ [e]) (blockCondition_ tr).

Definition on_turn (f : t World -> t World) (p : TurnPtr) (m : Store World) : Store World :=
  mkStore (alter f p (turns m)) (conds m).

Definition on_cond (f : BlockingCondition.t -> BlockingCondition.t) (p : CondPtr)
    (m : Store World) : Store World :=
  mkStore (turns m) (alter f p (conds m)).

(** [p->blockCondition_.Block()] and [p->blockCondition_.Unblock()]. *)
Definition block_turn (p : TurnPtr) : Store World -> Store World :=
  on_turn (fun tr => set_blockCondition (BlockingCondition.Block (blockCondition_ tr)) tr) p.

Definition unblock_turn (p : TurnPtr) : Store World -> Store World :=
  on_turn (fun tr => set_blockCondition (BlockingCondition.Unblock (blockCondition_ tr)) tr) p.

(** [void Append(ExclusiveTurn& tr)] on the turn at [this]. *)
Definition Append (this tr : TurnPtr) (m : Store World) : Store World :=
  block_turn tr (on_turn (set_successor (Some tr)) this m).

(** [void WaitForUnblock()]: can the calling thread get through in [m]? *)
Definition WaitForUnblock (this : TurnPtr) (m : Store World) : bool :=
  match turns m !! this with
  | Some tr => BlockingCondition.WaitForUnblock (blockCondition_ tr)
  | None => false
  end.

(** [void RunMergedInputs()]: the closures are called one after the other,
    in the order of [merged_], by the thread that calls the method. *)
Definition RunMergedInputs (self : t World) (w : World) : World :=
  fold_left (fun w e => e.1 w) (merged_ self) w.

(** Who is woken, in the order of the calls to [Unblock]. *)
Inductive Wake :=
  | WakeCaller (c : CondPtr)
  | WakeTurn (p : TurnPtr).

(** The first loop of [UnblockSuccessors]:
    [for (const auto& e : merged_) e.second->Unblock();]. *)
Definition unblock_callers (l : list ((World -> World) * CondPtr)) (m : Store World)
    : Store World :=
  fold_left (fun m e => on_cond BlockingCondition.Unblock e.2 m) l m.

(** [void UnblockSuccessors()]: the store afterwards and the wake-ups, in
    the order they are made. *)
Definition UnblockSuccessors (this : TurnPtr) (m : Store World) : Store World * list Wake :=
  match turns m !! this with
  | None => (m, [])
  | Some self =>
      let m1 := unblock_callers (merged_ self) m in
      let l1 := map (fun e => WakeCaller e.2) (merged_ self) in
      match successor_ self with
      | Some s => (unblock_turn s m1, l1 ++ [WakeTurn s])
      | None => (m1, l1)
      end
  end.

(** [bool TryMerge(F&& inputFunc, BlockingCondition& caller)]. *)
Definition TryMerge (this : TurnPtr) (inputFunc : World -> World) (caller : CondPtr)
    (m : Store World) : bool * Store World :=
  match turns m !! this with
  | None => (false, m)
  | Some self =>
      if negb (isMergeable_ self) then (false, m)
      else
        BlockingCondition.RunIfBlocked (blockCondition_ self)
          (fun m => on_turn (emplace_back (inputFunc, caller)) this
                      (on_cond BlockingCondition.Block caller m))
          m
  end.

End Methods.
End ExclusiveTurn.

(* ===================================================================== *)
(** ** ExclusiveTurnManager *)
(* ===================================================================== *)

Module ExclusiveTurnManager.
Import ExclusiveTurn.

(** The manager's [tail_] together with the objects it points into.
    [seqMutex_] is not a field of the model: each block the source runs
    under it is one function below. *)
Record t (World : Type) := mk {
  tail_ : option TurnPtr;
  store : Store World
}.
Arguments mk {World}.
Arguments tail_ {World}.
Arguments store {World}.

Section Methods.
Context {World : Type}.

(** [BlockingCondition caller;] a local of [TryMerge]: it gets an address
    no live condition has, and is destroyed when [TryMerge] returns. *)
Definition new_caller (s : t World) : CondPtr := fresh (dom (conds (store s))).

Definition alloc_caller (s : t World) : t World :=
  mk (tail_ s)
     (mkStore (turns (store s)) (<[new_caller s := BlockingCondition.init]> (conds (store s)))).

Definition free_caller (caller : CondPtr) (s : t World) : t World :=
  mk (tail_ s) (mkStore (turns (store s)) (delete caller (conds (store s)))).

(** The [seqMutex_] block of [TryMerge]. *)
Definition TryMerge_locked (inputFunc : World -> World) (caller : CondPtr)
    (s : t World) : bool * t World :=
  match tail_ s with
  | Some p =>
      let '(merged, m) := ExclusiveTurn.TryMerge p inputFunc caller (store s) in
      (merged, mk (tail_ s) m)
  | None => (false, s)
  end.

(** [TryMerge] up to the end of its [seqMutex_] block: the value of the
    local [merged], the address of [caller], and the new state. *)
Definition TryMerge_enter (inputFunc : World -> World) (s : t World) : bool * CondPtr * t World :=
  let caller := new_caller s in
  let '(merged, s') := TryMerge_locked inputFunc caller (alloc_caller s) in
  (merged, caller, s').

(** The rest of [TryMerge], run in whatever state [s] the other threads
    have produced meanwhile: [if (merged) caller.WaitForUnblock(); return
    merged;].  [None]: the thread is still blocked in the wait. *)
Definition TryMerge_leave (merged : bool) (caller : CondPtr) (s : t World)
    : option (bool * t World) :=
  if merged then
    match conds (store s) !! caller with
    | Some c =>
        if BlockingCondition.WaitForUnblock c then Some (merged, free_caller caller s) else None
    | None => None
    end
  else Some (merged, free_caller caller s).

(** The [seqMutex_] block of [StartTurn]. *)
Definition StartTurn_locked (turn : TurnPtr) (s : t World) : t World :=
  let m := match tail_ s with
           | Some p => ExclusiveTurn.Append p turn (store s)
           | None => store s
           end in
  mk (Some turn) m.

(** The rest of [StartTurn]: [turn.WaitForUnblock()].  [true]: the call
    returns in state [s]; [false]: the thread is still blocked. *)
Definition StartTurn_leave (turn : TurnPtr) (s : t World) : bool :=
  ExclusiveTurn.WaitForUnblock turn (store s).

(** [EndTurn], all of it under [seqMutex_]. *)
Definition EndTurn (turn : TurnPtr) (s : t World) : t World * list Wake :=
  let '(m, woken) := ExclusiveTurn.UnblockSuccessors turn (store s) in
  (mk (if decide (tail_ s = Some turn) then None else tail_ s) m, woken).

(** [TryMerge] called for each closure of [fs] in turn, each by a thread
    of its own, up to the end of the [seqMutex_] block: the values of
    [merged], and the state once the last call has left the block. *)
Fixpoint TryMerge_each (fs : list (World -> World)) (s : t World) : list bool * t World :=
  match fs with
  | [] => ([], s)
  | f :: fs' =>
      let '(merged, _, s1) := TryMerge_enter f s in
      let '(ms, s2) := TryMerge_each fs' s1 in
      (merged :: ms, s2)
  end.

(** Spec side of merging: the closures of [fs] written as one user
    closure, whose body calls them one after the other. *)
Definition one_user_closure (fs : list (World -> World)) : World -> World :=
  fold_right (fun f rest => fun w => rest (f w)) (fun w => w) fs.

End Methods.
End ExclusiveTurnManager.

(* ===================================================================== *)
(** ** TurnBase *)
(* ===================================================================== *)

Abbreviation TurnIdT := Z (only parsing).
Abbreviation ObsPtr := nat (only parsing).

Module TurnBase.

(** [detachedObserversPtr_] is a [unique_ptr] to a vector of observer
    addresses, null until the first [QueueForDetach].  The field
    [continuation_] is not read by the methods embedded here. *)
Record t := mk {
  id_ : TurnIdT;
  detachedObserversPtr_ : option (list ObsPtr)
}.

(** [TurnBase(TurnIdT id, TurnFlagsT flags)]. *)
Definition ctor (id flags : Z) : t := mk id None.

Definition Id (turn : t) : TurnIdT := id_ turn.

(** [void QueueForDetach(IObserverNode& obs)]. *)
Definition QueueForDetach (obs : ObsPtr) (turn : t) : t :=
  let v := match detachedObserversPtr_ turn with
           | None => []
           | Some v => v
           end in
  mk (id_ turn) (Some (v ++ [obs])).

(** [template <typename TRegistry> void detachObservers(TRegistry&)].
    The registry type is the template parameter: any type with an
    [Unregister] method. *)
Definition detachObservers {TRegistry : Type}
    (Unregister : ObsPtr -> TRegistry -> TRegistry)
    (turn : t) (registry : TRegistry) : TRegistry :=
  match detachedObserversPtr_ turn with
  | Some v => fold_left (fun r o => Unregister o r) v registry
  | None => registry
  end.

(** The observers queued on a turn, in queueing order. *)
Definition queued (turn : t) : list ObsPtr :=
  match detachedObserversPtr_ turn with
  | Some v => v
  | None => []
  end.

(** A registry that only records the calls to [Unregister] it receives. *)
Definition RecordingRegistry := list ObsPtr.

Definition record_Unregister (o : ObsPtr) (calls : RecordingRegistry) : RecordingRegistry :=
  calls ++ [o].

(** The calls to [Unregister] that [detachObservers] issues, in order. *)
Definition Unregister_calls (turn : t) : list ObsPtr :=
  detachObservers record_Unregister turn [].

End TurnBase.

Module ObserverRegistry.

(** Modelled from the spec: the observer registry, whose class is not
    among the sources: "Plain set keyed by stable observer identity.
    [unregister] is idempotent." *)
Definition t := gset ObsPtr.

Definition Unregister (o : ObsPtr) (r : t) : t := r ∖ {[ o ]}.

End ObserverRegistry.

(* ===================================================================== *)
(** ** Assertions and engine callbacks *)
(* ===================================================================== *)

(** Outcome of code that may fail a [REACT_ASSERT]. *)
Inductive Result (A : Type) :=
  | Ok (a : A)
  | AssertionFailed (msg : string).
Arguments Ok {A}.
Arguments AssertionFailed {A}.

(** Modelled from the spec: the macro [REACT_ASSERT] of react/Defs.h, which
    is not among the sources.  The spec lists misuse of a node as
    "InvalidState ... Fatal": the assertion stops the caller with its
    message when the condition is false. *)
Definition REACT_ASSERT (condition : bool) (msg : string) : Result unit :=
  if condition then Ok tt else AssertionFailed msg.

Definition newline : string := String (Ascii.ascii_of_nat 10) EmptyString.

(** Calls a node makes on its engine, and on its fused op's
    [Attach]/[Detach], which in turn report to the engine.  The node
    argument is always [*this] and is left out. *)
Inductive EngineCall :=
  | OnNodeCreate
  | OnNodeDestroy
  | OpAttach
  | OpDetach
  | OnTurnInputChange (turn : TurnIdT)
  | OnNodePulse (turn : TurnIdT)
  | OnNodeIdlePulse (turn : TurnIdT).

(* ===================================================================== *)
(** ** EventStreamNode *)
(* ===================================================================== *)

Abbreviation NodePtr := nat (only parsing).

Definition INT_MAX : Z := 2147483647.

(** Conversion to [uint], the type of [curTurnId_]. *)
Definition to_uint (z : Z) : Z := z mod 2 ^ 32.

Module EventStreamNode.

Record t (E : Type) := mk {
  events_    : list E;
  curTurnId_ : Z
}.
Arguments mk {E}.
Arguments events_ {E}.
Arguments curTurnId_ {E}.

Section Methods.
Context {E : Type}.

Definition ctor : t E := mk [] (to_uint INT_MAX).

(** [void SetCurrentTurn(const TurnT& turn, bool forceUpdate = false,
    bool noClear = false)]. *)
Definition SetCurrentTurn (turn : TurnBase.t) (forceUpdate noClear : bool) (n : t E) : t E :=
  if negb (curTurnId_ n =? TurnBase.Id turn) || forceUpdate then
    mk (if negb noClear then [] else events_ n) (to_uint (TurnBase.Id turn))
  else n.

(** [void ClearEvents(const TurnT& turn)]. *)
Definition ClearEvents (turn : TurnBase.t) (n : t E) : t E :=
  mk [] (to_uint (TurnBase.Id turn)).

Definition Events (n : t E) : list E := events_ n.

End Methods.
End EventStreamNode.

(* ===================================================================== *)
(** ** EventSourceNode *)
(* ===================================================================== *)

Module EventSourceNode.

(** The [EventStreamNode] base sub-object and the node's own field. *)
Record t (E : Type) := mk {
  base : EventStreamNode.t E;
  changedFlag_ : bool
}.
Arguments mk {E}.
Arguments base {E}.
Arguments changedFlag_ {E}.

Section Methods.
Context {E : Type}.

Definition ctor : t E * list EngineCall :=
  (mk EventStreamNode.ctor false, [OnNodeCreate]).

(** [virtual void Tick(void* turnPtr)]. *)
Definition Tick (turn : TurnBase.t) (n : t E) : Result (t E * list EngineCall) :=
  match REACT_ASSERT false ("Don't tick the EventSourceNode" +:+ newline) with
  | Ok _ => Ok (n, [])
  | AssertionFailed msg => AssertionFailed msg
  end.

Definition IsInputNode (n : t E) : bool := true.

(** [template <typename V> void AddInput(V&& v)]. *)
Definition AddInput (v : E) (n : t E) : t E :=
  let n1 :=
    if changedFlag_ n then
      mk (EventStreamNode.mk [] (EventStreamNode.curTurnId_ (base n))) false
    else n in
  mk (EventStreamNode.mk (EventStreamNode.events_ (base n1) ++ [v])
                         (EventStreamNode.curTurnId_ (base n1)))
     (changedFlag_ n1).

(** [virtual bool ApplyInput(void* turnPtr)]: the value returned, the node
    afterwards, and the calls made on the engine. *)
Definition ApplyInput (turn : TurnBase.t) (n : t E) : bool * t E * list EngineCall :=
  if (0 <? Z.of_nat (length (EventStreamNode.events_ (base n)))) && negb (changedFlag_ n) then
    (true,
     mk (EventStreamNode.SetCurrentTurn turn true true (base n)) true,
     [OnTurnInputChange (TurnBase.Id turn)])
  else (false, n, []).

(** The calls a host makes on an input node between turns and during
    admission, and their effect on the node. *)
Inductive InputCall :=
  | CallAddInput (v : E)
  | CallApplyInput (turn : TurnBase.t).

Definition run_call (n : t E) (c : InputCall) : t E :=
  match c with
  | CallAddInput v => AddInput v n
  | CallApplyInput turn => (ApplyInput turn n).1.2
  end.

Definition run_calls (cs : list InputCall) (n : t E) : t E := fold_left run_call cs n.

(** Spec side of [ApplyInput]: after a history of calls, is there a value
    that was staged by [AddInput] and not published by an [ApplyInput]
    since?  An [ApplyInput] publishes whatever is staged. *)
Definition staged_unpublished (cs : list InputCall) : bool :=
  fold_left (fun staged c => match c with
                             | CallAddInput _ => true
                             | CallApplyInput _ => false
                             end) cs false.

End Methods.
End EventSourceNode.

(* ===================================================================== *)
(** ** Pack expansion *)
(* ===================================================================== *)

(** The macro [REACT_EXPAND_PACK] is declared outside the sources and is
    taken as a parameter.  It evaluates the expressions of a parameter
    pack, each one once, in an order the sources do not fix:
    [pack_order n] lists the positions of a pack of [n] expressions in
    the order of their evaluation. *)
Class PackExpansion := {
  pack_order : nat -> list nat;
  pack_order_perm : forall n, pack_order n ≡ₚ seq 0 n
}.

(** The expressions of a pack in the order of their evaluation. *)
Definition REACT_EXPAND_PACK `{!PackExpansion} {X : Type} (pack : list X) : list X :=
  omap (fun i => pack !! i) (pack_order (length pack)).

(** Two expansions: first expression first, and last expression first. *)
Definition left_to_right : PackExpansion :=
  {| pack_order := seq 0; pack_order_perm := fun n => reflexivity (seq 0 n) |}.

Definition right_to_left : PackExpansion :=
  {| pack_order := fun n => reverse (seq 0 n);
     pack_order_perm := fun n => reverse_Permutation (seq 0 n) |}.

(* ===================================================================== *)
(** ** Fused event ops *)
(* ===================================================================== *)

(** A dependency of an op is a node holder (a shared pointer to an event
    stream node) or another op: [EventMergeOp<E,TDeps...>],
    [EventFilterOp<E,TFilter,TDep>], [EventTransformOp<E,TFunc,TDep>]. *)
Inductive Op (E : Type) :=
  | NodeHolder (depPtr : NodePtr)
  | EventMergeOp (deps_ : list (Op E))
  | EventFilterOp (filter_ : E -> bool) (dep : Op E)
  | EventTransformOp (func_ : E -> E) (dep : Op E).
Arguments NodeHolder {E}.
Arguments EventMergeOp {E}.
Arguments EventFilterOp {E}.
Arguments EventTransformOp {E}.

Module EventOp.
Section Collect.
Context {E A : Type} {expansion : PackExpansion}.

(** The nodes the ops hold, by address. *)
Definition Nodes := gmap nat (EventStreamNode.t E).

(** [FilteredEventCollector::operator()]. *)
Definition FilteredEventCollector (MyFilter : E -> bool) (MyFiltered : E -> A -> A)
    : E -> A -> A :=
  fun e a => if MyFilter e then MyFiltered e a else a.

(** [TransformEventCollector::operator()]. *)
Definition TransformEventCollector (MyFunc : E -> E) (MyTarget : E -> A -> A)
    : E -> A -> A :=
  fun e a => MyTarget (MyFunc e) a.

(** [collect]/[collectImpl] on a node holder:
    [depPtr->SetCurrentTurn(turn); for (v : depPtr->Events()) collector(v);].
    The shared pointer keeps the node alive; with no node at the address
    nothing is collected. *)
Definition collectNode (turn : TurnBase.t) (collector : E -> A -> A) (depPtr : NodePtr)
    (st : Nodes * A) : Nodes * A :=
  match st.1 !! depPtr with
  | Some n =>
      let n' := EventStreamNode.SetCurrentTurn turn false false n in
      (<[depPtr := n']> st.1,
       fold_left (fun a v => collector v a) (EventStreamNode.Events n') st.2)
  | None => st
  end.

(** [Collect(turn, collector)] of the three ops; [collector] acts on the
    state [A] it captures by reference.  A merge collects from its
    dependencies in the order [REACT_EXPAND_PACK] gives. *)
Fixpoint Collect (op : Op E) (turn : TurnBase.t) (collector : E -> A -> A)
    (st : Nodes * A) : Nodes * A :=
  match op with
  | NodeHolder depPtr => collectNode turn collector depPtr st
  | EventMergeOp deps =>
      fold_left (fun st collect => collect st)
        (REACT_EXPAND_PACK (map (fun d => Collect d turn collector) deps)) st
  | EventFilterOp filter dep => Collect dep turn (FilteredEventCollector filter collector) st
  | EventTransformOp func dep => Collect dep turn (TransformEventCollector func collector) st
  end.

End Collect.
End EventOp.

(* ===================================================================== *)
(** ** EventOpNode *)
(* ===================================================================== *)

Module EventOpNode.

Record t (E : Type) := mk {
  base : EventStreamNode.t E;
  op_ : Op E;
  wasOpStolen_ : bool
}.
Arguments mk {E}.
Arguments base {E}.
Arguments op_ {E}.
Arguments wasOpStolen_ {E}.

Section Methods.
Context {E : Type} {expansion : PackExpansion}.

Definition ctor (op : Op E) : t E * list EngineCall :=
  (mk EventStreamNode.ctor op false, [OnNodeCreate; OpAttach]).

(** [~EventOpNode()]: the calls the destructor makes. *)
Definition dtor (n : t E) : list EngineCall :=
  (if negb (wasOpStolen_ n) then [OpDetach] else []) ++ [OnNodeDestroy].

(** [EventCollector::operator()]: [MyEvents.push_back(e)]. *)
Definition EventCollector (e : E) (MyEvents : list E) : list E := MyEvents ++ [e].

(** [virtual void Tick(void* turnPtr)]: the node and the nodes it depends
    on afterwards, and the calls made on the engine. *)
Definition Tick (turn : TurnBase.t) (n : t E) (nodes : EventOp.Nodes)
    : t E * EventOp.Nodes * list EngineCall :=
  let b := EventStreamNode.SetCurrentTurn turn true false (base n) in
  let '(nodes', events) :=
    EventOp.Collect (op_ n) turn EventCollector (nodes, EventStreamNode.Events b) in
  let n' := mk (EventStreamNode.mk events (EventStreamNode.curTurnId_ b)) (op_ n) (wasOpStolen_ n) in
  (n', nodes',
   if negb (bool_decide (EventStreamNode.events_ (base n') = [])) then [OnNodePulse (TurnBase.Id turn)]
   else [OnNodeIdlePulse (TurnBase.Id turn)]).

(** [TOp StealOp()]: the op returned, the node afterwards, and the calls
    made.  [std::move(op_)] leaves a moved-from op in the node, which the
    source never reads again: a node whose op was stolen is detached and
    is only destroyed.  The record keeps the field as it was; what [Tick]
    gives on a node with [wasOpStolen_] set says nothing about the
    source, where such a call is undefined. *)
Definition StealOp (n : t E) : Result (Op E * t E * list EngineCall) :=
  match REACT_ASSERT (bool_decide (wasOpStolen_ n = false)) "Op was already stolen." with
  | AssertionFailed msg => AssertionFailed msg
  | Ok _ => Ok (op_ n, mk (base n) (op_ n) true, [OpDetach])
  end.

End Methods.
End EventOpNode.

(* ===================================================================== *)
(** ** Concrete scenarios *)
(* ===================================================================== *)

Module Scenario.
Import ExclusiveTurn ExclusiveTurnManager.

(** The host state is one counter; [enable_input_merging] is bit 0 and
    both turns are constructed with it set. *)
Definition new_turn : ExclusiveTurn.t nat := ExclusiveTurn.ctor 1 1.

Definition s0 : ExclusiveTurnManager.t nat :=
  ExclusiveTurnManager.mk None (mkStore {[ 1%nat := new_turn; 2%nat := new_turn ]} ∅).

(** Turn 1 starts and runs; turn 2 starts behind it and blocks. *)
Definition s1 : ExclusiveTurnManager.t nat := StartTurn_locked 1 s0.
Definition s2 : ExclusiveTurnManager.t nat := StartTurn_locked 2 s1.

(** Turn 2 as it stands in [s2]. *)
Definition blocked_turn : ExclusiveTurn.t nat :=
  ExclusiveTurn.mk true None [] (BlockingCondition.mk true).

(** Three threads each merge an increment while turn 1 is in flight. *)
Definition increments : list (nat -> nat) := [S; S; S].
Definition s3 : ExclusiveTurnManager.t nat := (TryMerge_each increments s2).2.

(** Turn 2 as it stands in [s3]. *)
Definition merged_turn : ExclusiveTurn.t nat :=
  ExclusiveTurn.mk true None [(S, 0%nat); (S, 1%nat); (S, 2%nat)] (BlockingCondition.mk true).

(** An event node holding two events of an earlier turn, and the turn
    that reads it. *)
Definition turn5 : TurnBase.t := TurnBase.ctor 5 0.
Definition stale_node : EventStreamNode.t Z := EventStreamNode.mk [1; 2] (to_uint INT_MAX).

(** A turn on which observer 7 was queued twice. *)
Definition twice_queued : TurnBase.t :=
  TurnBase.QueueForDetach 7 (TurnBase.QueueForDetach 7 (TurnBase.ctor 1 0)).

(** Two source nodes read in turn 5: node 10 published [3; 8] in turn 5,
    node 11 holds [4] from turn 4.  The op merges the even events of node
    10 with the doubled events of node 11. *)
Definition nodes5 : gmap nat (EventStreamNode.t Z) :=
  {[ 10%nat := EventStreamNode.mk [3; 8] 5; 11%nat := EventStreamNode.mk [4] 4 ]}.

Definition merge_op : Op Z :=
  EventMergeOp [EventFilterOp Z.even (NodeHolder 10);
                EventTransformOp (Z.mul 2) (NodeHolder 11)].

End Scenario.

(* ===================================================================== *)
(** ** What an op holds and what it denotes *)
(* ===================================================================== *)

Module EventOpSpec.
Section Spec.
Context {E : Type} {expansion : PackExpansion}.

(** The node holders of an op. *)
Fixpoint holders (op : Op E) : list NodePtr :=
  match op with
  | NodeHolder depPtr => [depPtr]
  | EventMergeOp deps => flat_map holders deps
  | EventFilterOp _ dep => holders dep
  | EventTransformOp _ dep => holders dep
  end.

(** [depPtr->SetCurrentTurn(turn)] on the node at [depPtr], if any. *)
Definition visit (turn : TurnBase.t) (nodes : gmap nat (EventStreamNode.t E)) (depPtr : NodePtr)
    : gmap nat (EventStreamNode.t E) :=
  match nodes !! depPtr with
  | Some n => <[depPtr := EventStreamNode.SetCurrentTurn turn false false n]> nodes
  | None => nodes
  end.

(** The events a reader of [turn] finds in the node at [depPtr]. *)
Definition current_events (turn : TurnBase.t) (nodes : gmap nat (EventStreamNode.t E))
    (depPtr : NodePtr) : list E :=
  match nodes !! depPtr with
  | Some n => EventStreamNode.events_ (EventStreamNode.SetCurrentTurn turn false false n)
  | None => []
  end.

(** Spec side of [Collect]: the event stream an op stands for, as a
    function of the nodes it holds: a merge is the concatenation of its
    dependencies, taken in the order of the pack expansion, a filter
    keeps the accepted events, a transform maps its function over
    them. *)
Fixpoint events_of (op : Op E) (turn : TurnBase.t) (nodes : gmap nat (EventStreamNode.t E))
    : list E :=
  match op with
  | NodeHolder depPtr => current_events turn nodes depPtr
  | EventMergeOp deps =>
      concat (REACT_EXPAND_PACK (map (fun d => events_of d turn nodes) deps))
  | EventFilterOp filter dep => List.filter filter (events_of dep turn nodes)
  | EventTransformOp func dep => map func (events_of dep turn nodes)
  end.

(** Induction on ops, with the hypothesis for every dependency of a
    merge. *)
Section Induction.
Variable P : Op E -> Prop.
Hypothesis Hnode : forall depPtr, P (NodeHolder depPtr).
Hypothesis Hmerge : forall deps, Forall P deps -> P (EventMergeOp deps).
Hypothesis Hfilter : forall filter dep, P dep -> P (EventFilterOp filter dep).
Hypothesis Htransform : forall func dep, P dep -> P (EventTransformOp func dep).

Fixpoint Op_nested_ind (op : Op E) : P op :=
  match op with
  | NodeHolder depPtr => Hnode depPtr
  | EventMergeOp deps =>
      Hmerge deps
        ((fix go (l : list (Op E)) : Forall P l :=
            match l with
            | [] => @List.Forall_nil _ P
            | d :: l' => @List.Forall_cons _ P d l' (Op_nested_ind d) (go l')
            end) deps)
  | EventFilterOp filter dep => Hfilter filter dep (Op_nested_ind dep)
  | EventTransformOp func dep => Htransform func dep (Op_nested_ind dep)
  end.

End Induction.

(** The life of an event-op node made from [op]: construction, [steals]
    calls of [StealOp], destruction.  A failed assertion stops the
    program: the calls made so far are all there is, and the destructor
    does not run.  The calls made, in order, and how the life ended. *)
Fixpoint steal_attempts (steals : nat) (n : EventOpNode.t E)
    : list EngineCall * Result (EventOpNode.t E) :=
  match steals with
  | O => ([], Ok n)
  | S k =>
      match EventOpNode.StealOp n with
      | Ok (_, n1, calls) =>
          let '(calls', r) := steal_attempts k n1 in (calls ++ calls', r)
      | AssertionFailed msg => ([], AssertionFailed msg)
      end
  end.

Definition lifetime_calls (op : Op E) (steals : nat) : list EngineCall * Result unit :=
  let '(n, created) := EventOpNode.ctor op in
  match steal_attempts steals n with
  | (stolen, Ok n') => (created ++ stolen ++ EventOpNode.dtor n', Ok tt)
  | (stolen, AssertionFailed msg) => (created ++ stolen, AssertionFailed msg)
  end.

End Spec.
End EventOpSpec.

(* ===================================================================== *)
(** ** The turn manager in use *)
(* ===================================================================== *)

Module Protocol.
Import ExclusiveTurn ExclusiveTurnManager.
Section Protocol.
Context {World : Type}.

(** A whole call of [TryMerge] that did not merge, or a call that merged,
    up to its wait. *)
Definition TryMerge_call (f : World -> World) (s : t World) : t World :=
  let '(merged, caller, s') := TryMerge_enter f s in
  if merged then s' else free_caller caller s'.

(** Construction and destruction of a turn object. *)
Definition construct (p : TurnPtr) (tr : ExclusiveTurn.t World) (s : t World) : t World :=
  ExclusiveTurnManager.mk (tail_ s) (mkStore (<[p := tr]> (turns (store s))) (conds (store s))).

Definition destroy (p : TurnPtr) (s : t World) : t World :=
  ExclusiveTurnManager.mk (tail_ s) (mkStore (delete p (turns (store s))) (conds (store s))).

(** The states a manager reaches when its clients keep to the protocol
    of a transaction: a turn is constructed, started once, and ended by
    its thread after [StartTurn] has returned; [TryMerge] may be called
    at any time.  The list holds the turns started and not yet ended, in
    the order of their [StartTurn]. *)
Inductive reachable : list TurnPtr -> t World -> Prop :=
  | reach_init :
      reachable [] (ExclusiveTurnManager.mk None (mkStore ∅ ∅))
  | reach_construct q s p eim flags :
      reachable q s -> turns (store s) !! p = None ->
      reachable q (construct p (ctor eim flags) s)
  | reach_destroy q s p :
      reachable q s -> p ∉ q ->
      reachable q (destroy p s)
  | reach_start q s turn eim flags :
      reachable q s -> turn ∉ q ->
      turns (store s) !! turn = Some (ctor eim flags) ->
      reachable (q ++ [turn]) (StartTurn_locked turn s)
  | reach_merge q s f :
      reachable q s ->
      reachable q (TryMerge_call f s)
  | reach_leave q s caller s' :
      reachable q s ->
      TryMerge_leave true caller s = Some (true, s') ->
      reachable q s'
  | reach_end q s turn :
      reachable q s -> turn ∈ q ->
      StartTurn_leave turn s = true ->
      reachable (filter (fun x => x <> turn) q) (EndTurn turn s).1.

(** The queue of started turns as the manager's objects record it:
    [tail_] is the turn started last, every started turn is live, its
    [successor_] is the turn started next, and all but the oldest are
    blocked. *)
Definition chain_ok (q : list TurnPtr) (s : t World) : Prop :=
  tail_ s = last q
  /\ NoDup q
  /\ forall i turn, q !! i = Some turn ->
       exists tr, turns (store s) !! turn = Some tr
         /\ BlockingCondition.blocked_ (blockCondition_ tr) = negb (bool_decide (i = 0%nat))
         /\ successor_ tr = q !! S i.

(** The callers recorded in the merge lists of the started turns. *)
Definition waiting (q : list TurnPtr) (s : t World) : list CondPtr :=
  flat_map (fun p => match turns (store s) !! p with
                     | Some tr => (merged_ tr).*2
                     | None => []
                     end) q.

(** No condition is recorded twice, and each is live and blocked. *)
Definition callers_ok (q : list TurnPtr) (s : t World) : Prop :=
  NoDup (waiting q s)
  /\ forall c, c ∈ waiting q s -> conds (store s) !! c = Some (BlockingCondition.mk true).

End Protocol.
End Protocol.

Module ProtocolScenario.
Import ExclusiveTurn ExclusiveTurnManager Protocol.

(** Turns 1 and 2 are constructed mergeable and started in this order;
    a thread merges an increment behind turn 1; a third turn, not
    mergeable, is constructed and started. *)
Definition r0 : ExclusiveTurnManager.t nat := ExclusiveTurnManager.mk None (mkStore ∅ ∅).
Definition r1 : ExclusiveTurnManager.t nat := construct 1 (ctor 1 1) r0.
Definition r2 : ExclusiveTurnManager.t nat := construct 2 (ctor 1 1) r1.
Definition r3 : ExclusiveTurnManager.t nat := StartTurn_locked 1 r2.
Definition r4 : ExclusiveTurnManager.t nat := StartTurn_locked 2 r3.
Definition r5 : ExclusiveTurnManager.t nat := TryMerge_call S r4.
Definition r6 : ExclusiveTurnManager.t nat := construct 3 (ctor 1 0) r5.
Definition r7 : ExclusiveTurnManager.t nat := StartTurn_locked 3 r6.

(** Turn 2 as it stands in [r5]. *)
Definition turn2_merged : ExclusiveTurn.t nat :=
  ExclusiveTurn.mk true None [(S, 0%nat)] (BlockingCondition.mk true).

(** An event source that staged 3 and 7 and published them in turn 5, at
    address 10, and a node that reads it. *)
Definition turn6 : TurnBase.t := TurnBase.ctor 6 0.

Definition staged_source : EventSourceNode.t Z :=
  EventSourceNode.AddInput 7 (EventSourceNode.AddInput 3 (EventSourceNode.ctor (E:=Z)).1).

Definition source_nodes : gmap nat (EventStreamNode.t Z) :=
  {[ 10%nat := EventSourceNode.base
                 (EventSourceNode.ApplyInput Scenario.turn5 staged_source).1.2 ]}.

Definition reader : EventOpNode.t Z :=
  (EventOpNode.ctor (EventMergeOp [NodeHolder 10])).1.

(** Two nodes with events of turn 5, and the merge of the two. *)
Definition two_sources : gmap nat (EventStreamNode.t Z) :=
  {[ 10%nat := EventStreamNode.mk [1; 2] 5; 11%nat := EventStreamNode.mk [3] 5 ]}.

Definition merge_two : Op Z := EventMergeOp [NodeHolder 10; NodeHolder 11].

End ProtocolScenario.

(* ===================================================================== *)
(** * Properties of the turn manager *)
(* ===================================================================== *)

Section TurnManagerFacts.
Context {World : Type}.
Implicit Types (s : ExclusiveTurnManager.t World) (m : ExclusiveTurn.Store World).
Implicit Types (tr : ExclusiveTurn.t World).

Import ExclusiveTurn ExclusiveTurnManager.

Lemma new_caller_fresh s : conds (store s) !! new_caller s = None.
Proof. apply not_elem_of_dom, is_fresh. Qed.

Lemma free_alloc_caller s : free_caller (new_caller s) (alloc_caller s) = s.
Proof.
  destruct s as [tl [ts cs]]. unfold free_caller, alloc_caller. cbn [tail_ store turns conds].
  rewrite delete_insert_eq, delete_id; [done|].
  apply (new_caller_fresh (ExclusiveTurnManager.mk tl (mkStore ts cs))).
Qed.

Lemma ctor_isMergeable (enable_input_merging flags : Z) :
  isMergeable_ (ctor (World:=World) enable_input_merging flags) = true
  <-> Z.land flags enable_input_merging <> 0.
Proof.
  cbn. rewrite negb_true_iff, Z.eqb_neq. tauto.
Qed.

Lemma ctor_not_blocked (enable_input_merging flags : Z) :
  BlockingCondition.IsBlocked (blockCondition_ (ctor (World:=World) enable_input_merging flags)) = false.
Proof. reflexivity. Qed.

(** What the turn-level [TryMerge] does, by cases on the target. *)
Lemma turn_TryMerge_true this f caller m tr :
  turns m !! this = Some tr ->
  isMergeable_ tr = true ->
  BlockingCondition.IsBlocked (blockCondition_ tr) = true ->
  ExclusiveTurn.TryMerge this f caller m
  = (true, on_turn (emplace_back (f, caller)) this (on_cond BlockingCondition.Block caller m)).
Proof.
  intros Hl Hm Hb. unfold ExclusiveTurn.TryMerge, BlockingCondition.RunIfBlocked.
  unfold BlockingCondition.IsBlocked in Hb. by rewrite Hl, Hm, Hb.
Qed.

Lemma turn_TryMerge_inv this f caller m b m' :
  ExclusiveTurn.TryMerge this f caller m = (b, m') ->
  (b = true /\ exists tr, turns m !! this = Some tr /\ isMergeable_ tr = true
                /\ BlockingCondition.IsBlocked (blockCondition_ tr) = true)
  \/ (b = false /\ m' = m).
Proof.
  unfold ExclusiveTurn.TryMerge, BlockingCondition.RunIfBlocked, BlockingCondition.IsBlocked.
  destruct (turns m !! this) as [tr|] eqn:Hl; [|intros [= <- <-]; by right].
  destruct (isMergeable_ tr) eqn:Hm; cbn; [|intros [= <- <-]; by right].
  destruct (BlockingCondition.blocked_ (blockCondition_ tr)) eqn:Hb; intros [= <- <-]; [left|by right].
  split; [done|]. by exists tr.
Qed.

Lemma TryMerge_leave_spec caller s (c : BlockingCondition.t) :
  conds (store s) !! caller = Some c ->
  TryMerge_leave true caller s
  = if BlockingCondition.IsBlocked c then None else Some (true, free_caller caller s).
Proof.
  intros Hc. unfold TryMerge_leave, BlockingCondition.WaitForUnblock, BlockingCondition.IsBlocked.
  rewrite Hc. by destruct (BlockingCondition.blocked_ c).
Qed.

(** C1. [TryMerge] of the manager: the local [merged], which is the value
    the call returns, is [true] exactly when a tail turn exists, was
    constructed mergeable (its flags had [enable_input_merging] set) and
    is still blocked.  Then the tail's [merged_] is what it was followed
    by the pair of the closure and the caller's condition, the tail's
    other fields are as they were, the caller's
    condition is blocked, and the call stays in [WaitForUnblock] for as
    long as that condition is blocked, returning [true] once it is not.
    Otherwise the call returns [false] at once and leaves the manager and
    every turn, the tail's [merged_] included, as they were. *)
Theorem C1_TryMerge_true_iff_tail_mergeable_and_blocked (inputFunc : World -> World) s :
  let '(merged, caller, s') := TryMerge_enter inputFunc s in
  (merged = true <->
     exists p tr, tail_ s = Some p /\ turns (store s) !! p = Some tr
       /\ isMergeable_ tr = true
       /\ BlockingCondition.IsBlocked (blockCondition_ tr) = true)
  /\ (forall eim flags,
        isMergeable_ (ctor (World:=World) eim flags) = true <-> Z.land flags eim <> 0)
  /\ (merged = true ->
        exists p tr, tail_ s = Some p /\ turns (store s) !! p = Some tr
          /\ tail_ s' = Some p
          /\ turns (store s') !! p = Some (emplace_back (inputFunc, caller) tr)
          /\ (exists tr', turns (store s') !! p = Some tr'
                /\ merged_ tr' = merged_ tr ++ [(inputFunc, caller)]
                /\ isMergeable_ tr' = isMergeable_ tr
                /\ successor_ tr' = successor_ tr
                /\ blockCondition_ tr' = blockCondition_ tr)
          /\ conds (store s) !! caller = None
          /\ conds (store s') !! caller = Some (BlockingCondition.mk true)
          /\ TryMerge_leave merged caller s' = None)
  /\ (forall s'' c, conds (store s'') !! caller = Some c ->
        TryMerge_leave true caller s''
        = if BlockingCondition.IsBlocked c then None else Some (true, free_caller caller s''))
  /\ (merged = false ->
        turns (store s') = turns (store s) /\ tail_ s' = tail_ s
        /\ TryMerge_leave merged caller s' = Some (false, s)).
Proof.
  unfold TryMerge_enter, TryMerge_locked.
  pose proof (new_caller_fresh s) as Hfresh.
  pose proof (free_alloc_caller s) as Hfree.
  destruct (tail_ (alloc_caller s)) as [p|] eqn:Htl; cbn in Htl.
  - destruct (ExclusiveTurn.TryMerge p inputFunc (new_caller s) (store (alloc_caller s)))
      as [merged m'] eqn:HTM.
    destruct (turn_TryMerge_inv _ _ _ _ _ _ HTM) as [[-> (tr & Hl & Hm & Hb)]|[-> ->]].
    + rewrite (turn_TryMerge_true p inputFunc (new_caller s) _ tr Hl Hm Hb) in HTM.
      cbn in Hl.
      injection HTM as <-.
      set (s' := ExclusiveTurnManager.mk (Some p)
                   (on_turn (emplace_back (inputFunc, new_caller s)) p
                      (on_cond BlockingCondition.Block (new_caller s) (store (alloc_caller s))))).
      assert (Hc' : conds (store s') !! new_caller s = Some (BlockingCondition.mk true)).
      { cbn. by rewrite lookup_alter_eq, lookup_insert_eq. }
      assert (Ht' : turns (store s') !! p = Some (emplace_back (inputFunc, new_caller s) tr)).
      { cbn. by rewrite lookup_alter_eq, Hl. }
      split; [split; [intros _; by exists p, tr | done]|].
      split; [apply ctor_isMergeable|].
      split.
      { intros _. exists p, tr.
        split; [done|]. split; [done|]. split; [done|]. split; [done|].
        split; [by exists (emplace_back (inputFunc, new_caller s) tr)|].
        split; [done|]. split; [done|].
        exact (TryMerge_leave_spec _ _ _ Hc'). }
      split; [intros s'' c Hc; by apply TryMerge_leave_spec|].
      intros [=].
    + split.
      { split; [intros [=]|]. intros (p0 & tr0 & H1 & H2 & H3 & H4).
        rewrite Htl in H1. injection H1 as <-.
        change (turns (store (alloc_caller s)) !! p = Some tr0) in H2.
        rewrite (turn_TryMerge_true p inputFunc (new_caller s) _ tr0 H2 H3 H4) in HTM.
        discriminate. }
      split; [apply ctor_isMergeable|].
      split; [intros [=]|].
      split; [intros s'' c Hc; by apply TryMerge_leave_spec|].
      intros _. split; [done|]. split; [done|].
      unfold TryMerge_leave. do 2 f_equal.
      etrans; [|exact Hfree]. unfold free_caller, alloc_caller. cbn. by rewrite Htl.
  - split.
    { split; [intros [=]|]. intros (p0 & tr0 & H1 & _). congruence. }
    split; [apply ctor_isMergeable|].
    split; [intros [=]|].
    split; [intros s'' c Hc; by apply TryMerge_leave_spec|].
    intros _. split; [done|]. split; [done|].
    unfold TryMerge_leave. by rewrite Hfree.
Qed.

(** A merge into a mergeable, blocked tail appends to that tail and
    leaves it mergeable and blocked. *)
Lemma TryMerge_enter_true f s p tr :
  tail_ s = Some p ->
  turns (store s) !! p = Some tr ->
  isMergeable_ tr = true ->
  BlockingCondition.IsBlocked (blockCondition_ tr) = true ->
  exists s1, TryMerge_enter f s = (true, new_caller s, s1)
    /\ tail_ s1 = Some p
    /\ turns (store s1) !! p = Some (emplace_back (f, new_caller s) tr).
Proof.
  intros Htl Hl Hm Hb. unfold TryMerge_enter, TryMerge_locked.
  change (tail_ (alloc_caller s)) with (tail_ s). rewrite Htl.
  change (turns (store (alloc_caller s)) !! p = Some tr) in Hl.
  rewrite (turn_TryMerge_true p f (new_caller s) _ tr Hl Hm Hb).
  eexists. split; [reflexivity|]. split; [done|].
  cbn. cbn in Hl. by rewrite lookup_alter_eq, Hl.
Qed.

Lemma RunMergedInputs_emplace_back tr (e : (World -> World) * nat) (w : World) :
  RunMergedInputs (emplace_back e tr) w = e.1 (RunMergedInputs tr w).
Proof. unfold RunMergedInputs. cbn. by rewrite fold_left_app. Qed.

(** C2. Merge idempotence.  Let the tail turn be mergeable and still
    blocked, and let the closures [fs] be merged into it by [TryMerge], one
    call after the other.  Every call merges; the closures are appended to
    the tail's [merged_] in the order of the calls; and [RunMergedInputs]
    on the tail, from any state of the host program, ends in the state
    that the closures already merged followed by [fs] written as one user
    closure end in. *)
Theorem C2_merged_inputs_run_as_one_closure (fs : list (World -> World)) :
  forall s p tr,
  tail_ s = Some p ->
  turns (store s) !! p = Some tr ->
  isMergeable_ tr = true ->
  BlockingCondition.IsBlocked (blockCondition_ tr) = true ->
  let '(ms, s') := TryMerge_each fs s in
  ms = replicate (length fs) true
  /\ exists tr', turns (store s') !! p = Some tr'
       /\ (merged_ tr').*1 = (merged_ tr).*1 ++ fs
       /\ forall w, RunMergedInputs tr' w = one_user_closure fs (RunMergedInputs tr w).
Proof.
  induction fs as [|f fs IH]; intros s p tr Htl Hl Hm Hb; cbn [TryMerge_each].
  - split; [done|]. exists tr. split; [done|]. split; [by rewrite app_nil_r|done].
  - destruct (TryMerge_enter_true f s p tr Htl Hl Hm Hb) as (s1 & -> & Htl1 & Hl1).
    specialize (IH s1 p (emplace_back (f, new_caller s) tr) Htl1 Hl1 Hm Hb).
    destruct (TryMerge_each fs s1) as [ms s2].
    destruct IH as (-> & tr' & Hl2 & Hfs & Hrun).
    split; [done|]. exists tr'. split; [done|]. split.
    + rewrite Hfs. cbn. rewrite fmap_app. cbn. by rewrite <- app_assoc.
    + intros w. rewrite Hrun, RunMergedInputs_emplace_back. done.
Qed.

Lemma unblock_callers_turns l m : turns (unblock_callers l m) = turns m.
Proof.
  revert m. induction l as [|e l IH]; intros m; [done|].
  unfold unblock_callers in *. cbn. by rewrite IH.
Qed.

Lemma unblock_callers_live l m c :
  is_Some (conds m !! c) -> is_Some (conds (unblock_callers l m) !! c).
Proof.
  revert m. induction l as [|e l IH]; intros m Hc; [done|].
  unfold unblock_callers in *. cbn. apply IH. cbn.
  destruct (decide (e.2 = c)) as [->|Hne].
  - rewrite lookup_alter_eq. destruct Hc as [x ->]. by eexists.
  - by rewrite lookup_alter_ne.
Qed.

Lemma unblock_callers_keeps l m c :
  conds m !! c = Some (BlockingCondition.mk false) ->
  conds (unblock_callers l m) !! c = Some (BlockingCondition.mk false).
Proof.
  revert m. induction l as [|e l IH]; intros m Hc; [done|].
  unfold unblock_callers in *. cbn. apply IH. cbn.
  destruct (decide (e.2 = c)) as [->|Hne].
  - by rewrite lookup_alter_eq, Hc.
  - by rewrite lookup_alter_ne.
Qed.

Lemma unblock_callers_wakes l m c :
  c ∈ l.*2 -> is_Some (conds m !! c) ->
  conds (unblock_callers l m) !! c = Some (BlockingCondition.mk false).
Proof.
  revert m. induction l as [|e l IH]; intros m Hin Hc.
  - by apply elem_of_nil in Hin.
  - cbn in Hin. apply elem_of_cons in Hin.
    change (unblock_callers (e :: l) m)
      with (unblock_callers l (on_cond BlockingCondition.Unblock e.2 m)).
    destruct (decide (c = e.2)) as [->|Hne].
    + apply unblock_callers_keeps. cbn. rewrite lookup_alter_eq.
      destruct Hc as [x ->]. done.
    + destruct Hin as [?|Hin]; [done|]. apply IH; [done|].
      cbn. by rewrite lookup_alter_ne.
Qed.

Lemma UnblockSuccessors_spec this m tr :
  turns m !! this = Some tr ->
  UnblockSuccessors this m
  = match successor_ tr with
    | Some x => (unblock_turn x (unblock_callers (merged_ tr) m),
                 map (fun e => WakeCaller e.2) (merged_ tr) ++ [WakeTurn x])
    | None => (unblock_callers (merged_ tr) m, map (fun e => WakeCaller e.2) (merged_ tr))
    end.
Proof. intros Hl. unfold UnblockSuccessors. by rewrite Hl. Qed.

(** In a list of wake-ups made of callers followed by at most one turn,
    every caller comes before the turn. *)
Lemma callers_before_turn (cs : list nat) (tl : list Wake) (i j : nat) c x :
  (forall k y, tl !! k = Some y -> exists z, y = WakeTurn z) ->
  (map WakeCaller cs ++ tl) !! i = Some (WakeCaller c) ->
  (map WakeCaller cs ++ tl) !! j = Some (WakeTurn x) ->
  (i < j)%nat.
Proof.
  intros Htl Hi Hj.
  destruct (decide (i < length (map WakeCaller cs))%nat) as [Hlt|Hge].
  - destruct (decide (j < length (map WakeCaller cs))%nat) as [Hjlt|Hjge]; [|lia].
    rewrite lookup_app_l in Hj by done.
    rewrite list_lookup_fmap in Hj. destruct (cs !! j); discriminate.
  - rewrite lookup_app_r in Hi by lia.
    destruct (Htl _ _ Hi) as [z Hz]. discriminate.
Qed.

(** C3. [EndTurn] on a live turn, one block under [seqMutex_]: the
    wake-ups are those of the callers in the turn's [merged_], in list
    order, followed by that of the successor if there is one, so every
    caller is woken before the successor; afterwards the conditions of
    these callers and of the successor are not blocked; and [tail_] is
    cleared when it pointed to this turn and is left as it was when it
    pointed elsewhere. *)
Theorem C3_EndTurn_wakes_callers_then_successor (turn : nat) s tr :
  turns (store s) !! turn = Some tr ->
  let '(s', woken) := EndTurn turn s in
  woken = map WakeCaller (merged_ tr).*2
          ++ match successor_ tr with Some x => [WakeTurn x] | None => [] end
  /\ (forall i j c x, woken !! i = Some (WakeCaller c) -> woken !! j = Some (WakeTurn x) ->
        (i < j)%nat)
  /\ (forall c, c ∈ (merged_ tr).*2 -> is_Some (conds (store s) !! c) ->
        conds (store s') !! c = Some (BlockingCondition.mk false))
  /\ (forall x, successor_ tr = Some x -> is_Some (turns (store s) !! x) ->
        exists tx, turns (store s') !! x = Some tx
          /\ BlockingCondition.IsBlocked (blockCondition_ tx) = false)
  /\ (tail_ s = Some turn -> tail_ s' = None)
  /\ (tail_ s <> Some turn -> tail_ s' = tail_ s).
Proof.
  intros Hl. unfold EndTurn. rewrite (UnblockSuccessors_spec _ _ _ Hl).
  assert (Hmap : map (fun e : (World -> World) * nat => WakeCaller e.2) (merged_ tr)
                 = map WakeCaller (merged_ tr).*2).
  { induction (merged_ tr) as [|e l IH]; [done|]. cbn. by rewrite IH. }
  rewrite Hmap.
  destruct (successor_ tr) as [x|] eqn:Hsucc; cbn [tail_ store].
  - split; [done|]. split.
    { intros i j c y. apply callers_before_turn.
      intros [|k] y' Hk; [|done]. injection Hk as <-. by eexists. }
    split.
    { intros c Hin Hc. cbn. by apply unblock_callers_wakes. }
    split.
    { intros y [= <-] [tx Hx]. cbn. rewrite lookup_alter_eq, unblock_callers_turns, Hx.
      eexists. split; [reflexivity|done]. }
    split; intros H; case_decide; done.
  - split; [by rewrite app_nil_r|]. split.
    { intros i j c y. rewrite <- (app_nil_r (map WakeCaller (merged_ tr).*2)).
      apply callers_before_turn. intros k y' Hk. done. }
    split.
    { intros c Hin Hc. by apply unblock_callers_wakes. }
    split; [intros y [=]|].
    split; intros H; case_decide; done.
Qed.

Lemma Append_turns this x m :
  turns (Append this x m)
  = alter (fun tr => set_blockCondition (BlockingCondition.Block (blockCondition_ tr)) tr) x
      (alter (set_successor (Some x)) this (turns m)).
Proof. reflexivity. Qed.

(** C4. [StartTurn] on a live turn.  When its [seqMutex_] block ends the
    turn is the manager's tail.  If there was a tail, that tail's
    [successor_] now points to the turn, the turn's condition is blocked,
    so the call does not get through [WaitForUnblock], and it does get
    through once [EndTurn] has run on that predecessor.  If there was no
    tail, nothing but [tail_] changes, and the call gets through
    [WaitForUnblock] at once for a turn whose condition is not blocked,
    as is the case after construction. *)
Theorem C4_StartTurn_appends_to_tail_and_blocks (turn : nat) s tr :
  turns (store s) !! turn = Some tr ->
  let s' := StartTurn_locked turn s in
  tail_ s' = Some turn
  /\ (forall p tl, tail_ s = Some p -> turns (store s) !! p = Some tl ->
        (exists tl', turns (store s') !! p = Some tl' /\ successor_ tl' = Some turn)
        /\ (exists tr', turns (store s') !! turn = Some tr'
              /\ BlockingCondition.IsBlocked (blockCondition_ tr') = true)
        /\ StartTurn_leave turn s' = false
        /\ StartTurn_leave turn (EndTurn p s').1 = true)
  /\ (tail_ s = None ->
        store s' = store s
        /\ (BlockingCondition.IsBlocked (blockCondition_ tr) = false ->
              StartTurn_leave turn s' = true))
  /\ (forall eim flags,
        BlockingCondition.IsBlocked (blockCondition_ (ctor (World:=World) eim flags)) = false).
Proof.
  intros Hl. cbn zeta. split; [done|]. split; [|split].
  - intros p tl Htl Hp. unfold StartTurn_locked. rewrite Htl. cbn [store tail_].
    assert (Hp' : exists tl', turns (Append p turn (store s)) !! p = Some tl'
                    /\ successor_ tl' = Some turn).
    { rewrite Append_turns. destruct (decide (turn = p)) as [->|Hne].
      - rewrite !lookup_alter_eq, Hp. eexists. split; [reflexivity|done].
      - rewrite lookup_alter_ne, lookup_alter_eq, Hp by done.
        eexists. split; [reflexivity|done]. }
    assert (Ht' : exists tr', turns (Append p turn (store s)) !! turn = Some tr'
                    /\ BlockingCondition.IsBlocked (blockCondition_ tr') = true).
    { rewrite Append_turns, lookup_alter_eq.
      destruct (decide (p = turn)) as [->|Hne].
      - rewrite lookup_alter_eq, Hl. eexists. split; [reflexivity|done].
      - rewrite lookup_alter_ne, Hl by done. eexists. split; [reflexivity|done]. }
    split; [done|]. split; [done|]. split.
    + unfold StartTurn_leave, ExclusiveTurn.WaitForUnblock. cbn [store].
      destruct Ht' as (tr' & -> & Hb). unfold BlockingCondition.WaitForUnblock.
      unfold BlockingCondition.IsBlocked in Hb. by rewrite Hb.
    + destruct Hp' as (tl' & Hp' & Hs). destruct Ht' as (tr' & Ht' & _).
      unfold EndTurn. cbn [store]. rewrite (UnblockSuccessors_spec _ _ _ Hp'), Hs.
      unfold StartTurn_leave, ExclusiveTurn.WaitForUnblock. cbn.
      by rewrite lookup_alter_eq, unblock_callers_turns, Ht'.
  - intros Htl. unfold StartTurn_locked. rewrite Htl. split; [done|].
    intros Hb. unfold StartTurn_leave, ExclusiveTurn.WaitForUnblock. cbn [store].
    rewrite Hl. unfold BlockingCondition.WaitForUnblock.
    unfold BlockingCondition.IsBlocked in Hb. by rewrite Hb.
  - intros eim flags. apply ctor_not_blocked.
Qed.

End TurnManagerFacts.

(* ===================================================================== *)
(** * Properties of the event-stream nodes *)
(* ===================================================================== *)

Section EventStreamFacts.
Context {E : Type} {expansion : PackExpansion}.

Lemma to_uint_small (z : Z) : 0 <= z < 2 ^ 32 -> to_uint z = z.
Proof. intros H. unfold to_uint. by apply Z.mod_small. Qed.

Lemma SetCurrentTurn_force (turn : TurnBase.t) (noClear : bool) (n : EventStreamNode.t E) :
  EventStreamNode.SetCurrentTurn turn true noClear n
  = EventStreamNode.mk (if negb noClear then [] else EventStreamNode.events_ n)
                       (to_uint (TurnBase.Id turn)).
Proof. unfold EventStreamNode.SetCurrentTurn. by rewrite orb_true_r. Qed.

Lemma SetCurrentTurn_default (turn : TurnBase.t) (n : EventStreamNode.t E) :
  EventStreamNode.SetCurrentTurn turn false false n
  = if EventStreamNode.curTurnId_ n =? TurnBase.Id turn then n
    else EventStreamNode.mk [] (to_uint (TurnBase.Id turn)).
Proof.
  unfold EventStreamNode.SetCurrentTurn. rewrite orb_false_r.
  by destruct (EventStreamNode.curTurnId_ n =? TurnBase.Id turn).
Qed.

(** C9. [SetCurrentTurn(turn)] with [forceUpdate] and [noClear] both
    false, for a turn id that fits [uint]: when the recorded id differs
    from the turn's, the event list is cleared and the turn's id recorded;
    when it is the same, the node is left as it is; so calling it a second
    time with the same turn changes nothing. *)
Theorem C9_SetCurrentTurn_clears_once_per_turn (turn : TurnBase.t) (n : EventStreamNode.t E) :
  0 <= TurnBase.Id turn < 2 ^ 32 ->
  let n' := EventStreamNode.SetCurrentTurn turn false false n in
  (EventStreamNode.curTurnId_ n <> TurnBase.Id turn ->
     n' = EventStreamNode.mk [] (TurnBase.Id turn))
  /\ (EventStreamNode.curTurnId_ n = TurnBase.Id turn -> n' = n)
  /\ EventStreamNode.SetCurrentTurn turn false false n' = n'.
Proof.
  intros Hid. cbn zeta. rewrite !SetCurrentTurn_default.
  destruct (Z.eqb_spec (EventStreamNode.curTurnId_ n) (TurnBase.Id turn)) as [Heq|Hne].
  - split; [done|]. split; [done|].
    apply Z.eqb_eq in Heq. by rewrite Heq.
  - rewrite (to_uint_small _ Hid). cbn [EventStreamNode.curTurnId_].
    rewrite Z.eqb_refl. done.
Qed.

(** C5. One [Tick] of an event-op node makes exactly one report to the
    engine for the turn, [OnNodePulse] or [OnNodeIdlePulse].  The node's
    event list after the tick is what the op collected in this tick (the
    list is cleared first); the report is [OnNodePulse] exactly when that
    list is not empty, and [OnNodeIdlePulse] exactly when it is empty. *)
Theorem C5_Tick_pulses_iff_events_collected (turn : TurnBase.t) (n : EventOpNode.t E)
    (nodes : EventOp.Nodes) :
  let '(n', nodes', calls) := EventOpNode.Tick turn n nodes in
  let collected :=
    (EventOp.Collect (EventOpNode.op_ n) turn EventOpNode.EventCollector (nodes, [])).2 in
  EventStreamNode.events_ (EventOpNode.base n') = collected
  /\ (calls = [OnNodePulse (TurnBase.Id turn)] \/ calls = [OnNodeIdlePulse (TurnBase.Id turn)])
  /\ (calls = [OnNodePulse (TurnBase.Id turn)] <-> collected <> [])
  /\ (calls = [OnNodeIdlePulse (TurnBase.Id turn)] <-> collected = []).
Proof.
  unfold EventOpNode.Tick. rewrite SetCurrentTurn_force. cbn [negb EventStreamNode.Events
    EventStreamNode.events_ EventStreamNode.curTurnId_].
  destruct (EventOp.Collect (EventOpNode.op_ n) turn EventOpNode.EventCollector (nodes, []))
    as [nodes' events].
  cbn [snd EventOpNode.base EventStreamNode.events_].
  split; [done|]. case_bool_decide as Hev; cbn [negb].
  - split; [by right|]. split; [split; [intros [=]|done]|done].
  - split; [by left|]. split; [done|]. split; [intros [=]|done].
Qed.

Lemma ApplyInput_true (turn : TurnBase.t) (n : EventSourceNode.t E) :
  EventStreamNode.events_ (EventSourceNode.base n) <> [] ->
  EventSourceNode.changedFlag_ n = false ->
  EventSourceNode.ApplyInput turn n
  = (true,
     EventSourceNode.mk
       (EventStreamNode.mk (EventStreamNode.events_ (EventSourceNode.base n))
                           (to_uint (TurnBase.Id turn))) true,
     [OnTurnInputChange (TurnBase.Id turn)]).
Proof.
  intros Hev Hfl. unfold EventSourceNode.ApplyInput. rewrite Hfl, SetCurrentTurn_force.
  destruct (EventStreamNode.events_ (EventSourceNode.base n)); done.
Qed.

Lemma ApplyInput_false (turn : TurnBase.t) (n : EventSourceNode.t E) :
  EventStreamNode.events_ (EventSourceNode.base n) = []
  \/ EventSourceNode.changedFlag_ n = true ->
  EventSourceNode.ApplyInput turn n = (false, n, []).
Proof.
  unfold EventSourceNode.ApplyInput. intros [->| ->]; [done|]. by rewrite andb_false_r.
Qed.

Lemma AddInput_stages (v : E) (n : EventSourceNode.t E) :
  EventStreamNode.events_ (EventSourceNode.base (EventSourceNode.AddInput v n)) <> []
  /\ EventSourceNode.changedFlag_ (EventSourceNode.AddInput v n) = false.
Proof.
  unfold EventSourceNode.AddInput.
  destruct (EventSourceNode.changedFlag_ n) eqn:Hfl; cbn; rewrite ?Hfl; split; try done.
  all: by destruct (EventStreamNode.events_ _).
Qed.

(** The test of [ApplyInput], as a function of the node. *)
Lemma ApplyInput_result (turn : TurnBase.t) (n : EventSourceNode.t E) :
  (EventSourceNode.ApplyInput turn n).1.1 = true
  <-> EventStreamNode.events_ (EventSourceNode.base n) <> []
      /\ EventSourceNode.changedFlag_ n = false.
Proof.
  split.
  - intros Hr. destruct (EventStreamNode.events_ (EventSourceNode.base n)) eqn:Hev.
    + rewrite ApplyInput_false in Hr by (by left). done.
    + destruct (EventSourceNode.changedFlag_ n) eqn:Hfl; [|done].
      rewrite ApplyInput_false in Hr by (by right). done.
  - intros [Hev Hfl]. by rewrite ApplyInput_true.
Qed.

(** After any call, whether a staged value awaits publication depends
    only on which call it was. *)
Lemma run_call_staged (n : EventSourceNode.t E) (c : EventSourceNode.InputCall) (turn : TurnBase.t) :
  (EventSourceNode.ApplyInput turn (EventSourceNode.run_call n c)).1.1
  = match c with
    | EventSourceNode.CallAddInput _ => true
    | EventSourceNode.CallApplyInput _ => false
    end.
Proof.
  destruct c as [v|turn0]; cbn [EventSourceNode.run_call].
  - destruct (AddInput_stages v n) as [Hev Hfl]. by rewrite ApplyInput_true.
  - destruct (EventStreamNode.events_ (EventSourceNode.base n)) eqn:Hev.
    { rewrite (ApplyInput_false turn0) by (by left). cbn.
      by rewrite ApplyInput_false by (by left). }
    destruct (EventSourceNode.changedFlag_ n) eqn:Hfl.
    { rewrite (ApplyInput_false turn0) by (by right). cbn.
      by rewrite ApplyInput_false by (by right). }
    rewrite (ApplyInput_true turn0) by (by rewrite ?Hev). cbn.
    by rewrite ApplyInput_false by (by right).
Qed.

Lemma run_calls_staged (cs : list EventSourceNode.InputCall) (turn : TurnBase.t) :
  (EventSourceNode.ApplyInput turn
     (EventSourceNode.run_calls cs (EventSourceNode.ctor (E:=E)).1)).1.1
  = EventSourceNode.staged_unpublished cs.
Proof.
  unfold EventSourceNode.run_calls, EventSourceNode.staged_unpublished.
  induction cs as [|c cs IH] using rev_ind; [done|].
  rewrite !fold_left_app. cbn [fold_left]. rewrite run_call_staged. done.
Qed.

(** C6. [ApplyInput] of an event source returns [true] exactly when the
    node holds staged events and [changedFlag_] is unset; over the
    histories of [AddInput] and [ApplyInput] calls on a new node, that is
    exactly when a value was staged by [AddInput] and not published since.
    When it returns [true] it reports [OnTurnInputChange] for the turn,
    sets [changedFlag_] and keeps the staged events; when it returns
    [false] it reports nothing and leaves the node as it is.  A second
    [ApplyInput] after one that returned [true], with nothing staged in
    between, returns [false], reports nothing and leaves the node as it
    is. *)
Theorem C6_ApplyInput_publishes_staged_once (turn : TurnBase.t) (n : EventSourceNode.t E) :
  let '(r, n', calls) := EventSourceNode.ApplyInput turn n in
  (r = true <-> EventStreamNode.events_ (EventSourceNode.base n) <> []
                /\ EventSourceNode.changedFlag_ n = false)
  /\ (r = true <-> calls = [OnTurnInputChange (TurnBase.Id turn)])
  /\ (r = true ->
        EventSourceNode.changedFlag_ n' = true
        /\ EventStreamNode.events_ (EventSourceNode.base n')
           = EventStreamNode.events_ (EventSourceNode.base n)
        /\ forall turn2, EventSourceNode.ApplyInput turn2 n' = (false, n', []))
  /\ (r = false -> calls = [] /\ n' = n)
  /\ (forall v, (EventSourceNode.ApplyInput turn (EventSourceNode.AddInput v n)).1.1 = true)
  /\ (forall cs,
        (EventSourceNode.ApplyInput turn
           (EventSourceNode.run_calls cs (EventSourceNode.ctor (E:=E)).1)).1.1
        = EventSourceNode.staged_unpublished cs).
Proof.
  pose proof (ApplyInput_result turn n) as Hres.
  assert (Hadd : forall v,
    (EventSourceNode.ApplyInput turn (EventSourceNode.AddInput v n)).1.1 = true).
  { intros v. destruct (AddInput_stages v n) as [Hev Hfl]. by rewrite ApplyInput_true. }
  destruct (EventStreamNode.events_ (EventSourceNode.base n)) as [|e es] eqn:Hev.
  { rewrite ApplyInput_false in * by (left; done). cbn in Hres.
    split; [done|]. split; [done|]. split; [done|]. split; [done|]. split; [done|].
    intros cs. apply run_calls_staged. }
  destruct (EventSourceNode.changedFlag_ n) eqn:Hfl.
  { rewrite ApplyInput_false in * by (right; done). cbn in Hres.
    split; [done|]. split; [done|]. split; [done|]. split; [done|]. split; [done|].
    intros cs. apply run_calls_staged. }
  rewrite ApplyInput_true in * by (by rewrite ?Hev).
  split; [done|]. split; [done|]. split.
  { intros _. split; [done|]. split; [by rewrite Hev|].
    intros turn2. apply ApplyInput_false. by right. }
  split; [done|]. split; [done|].
  intros cs. apply run_calls_staged.
Qed.

(** C7 (as amended). [Tick] on an event source is not a supported
    operation: for every node and turn it fails the node's assertion,
    with the message of the source. *)
Theorem C7_source_Tick_fails_assertion (turn : TurnBase.t) (n : EventSourceNode.t E) :
  EventSourceNode.Tick turn n
  = AssertionFailed ("Don't tick the EventSourceNode" +:+ newline).
Proof. reflexivity. Qed.

(** C10. [StealOp] succeeds at most once.  On a node whose op was not
    stolen, as after construction, it detaches the op, sets
    [wasOpStolen_] and returns the op; on the node it leaves, and on any
    node whose op was stolen, it fails the assertion; and the destructor of
    a node whose op was stolen reports the destruction without detaching
    the op, while on a node whose op was not stolen it detaches the op
    first. *)
Theorem C10_StealOp_at_most_once (n : EventOpNode.t E) :
  (EventOpNode.wasOpStolen_ n = false ->
     exists n1,
       EventOpNode.StealOp n = Ok (EventOpNode.op_ n, n1, [OpDetach])
       /\ EventOpNode.wasOpStolen_ n1 = true
       /\ EventOpNode.base n1 = EventOpNode.base n
       /\ EventOpNode.StealOp n1 = AssertionFailed "Op was already stolen."
       /\ EventOpNode.dtor n1 = [OnNodeDestroy]
       /\ EventOpNode.dtor n = [OpDetach; OnNodeDestroy])
  /\ (EventOpNode.wasOpStolen_ n = true ->
        EventOpNode.StealOp n = AssertionFailed "Op was already stolen."
        /\ EventOpNode.dtor n = [OnNodeDestroy])
  /\ (forall op, EventOpNode.wasOpStolen_ (EventOpNode.ctor (E:=E) op).1 = false).
Proof.
  split; [|split].
  - intros Hst. eexists. unfold EventOpNode.StealOp, EventOpNode.dtor. rewrite Hst. cbn.
    repeat split; reflexivity.
  - intros Hst. unfold EventOpNode.StealOp, EventOpNode.dtor. rewrite Hst. by cbn.
  - done.
Qed.

End EventStreamFacts.

(* ===================================================================== *)
(** * Properties of the turn object *)
(* ===================================================================== *)

Section TurnBaseFacts.

Lemma queued_QueueForDetach (obs : nat) (turn : TurnBase.t) :
  TurnBase.queued (TurnBase.QueueForDetach obs turn) = TurnBase.queued turn ++ [obs].
Proof. unfold TurnBase.queued, TurnBase.QueueForDetach. by destruct (TurnBase.detachedObserversPtr_ turn). Qed.

Lemma detachObservers_fold {R : Type} (Unregister : nat -> R -> R) (turn : TurnBase.t) (r : R) :
  TurnBase.detachObservers Unregister turn r
  = fold_left (fun r o => Unregister o r) (TurnBase.queued turn) r.
Proof. unfold TurnBase.detachObservers, TurnBase.queued. by destruct (TurnBase.detachedObserversPtr_ turn). Qed.

Lemma record_calls (l calls : list nat) :
  fold_left (fun r o => TurnBase.record_Unregister o r) l calls = calls ++ l.
Proof.
  revert calls. induction l as [|o l IH]; intros calls; cbn; [by rewrite app_nil_r|].
  rewrite IH. unfold TurnBase.record_Unregister. by rewrite <- app_assoc.
Qed.

Lemma Unregister_calls_queued (turn : TurnBase.t) :
  TurnBase.Unregister_calls turn = TurnBase.queued turn.
Proof. unfold TurnBase.Unregister_calls. by rewrite detachObservers_fold, record_calls. Qed.

Lemma unregister_all (l : list nat) (r : gset nat) :
  fold_left (fun r o => ObserverRegistry.Unregister o r) l r = r ∖ list_to_set l.
Proof.
  revert r. induction l as [|o l IH]; intros r; cbn.
  - set_solver.
  - rewrite IH. unfold ObserverRegistry.Unregister. set_solver.
Qed.

(** C8 (as amended). Finalization calls [Unregister] on the observers
    queued on the turn, in queueing order and once per queueing: an
    observer queued once is unregistered exactly once, an observer queued
    several times is unregistered that many times, and an observer never
    queued is not unregistered.  On the registry of the spec, a set with
    an idempotent unregister, the outcome is the registry without the
    queued observers. *)
Theorem C8_detachObservers_once_per_queueing (turn : TurnBase.t) (o : nat) :
  TurnBase.Unregister_calls turn = TurnBase.queued turn
  /\ count_occ Nat.eq_dec (TurnBase.Unregister_calls turn) o
     = count_occ Nat.eq_dec (TurnBase.queued turn) o
  /\ (count_occ Nat.eq_dec (TurnBase.queued turn) o = 1%nat ->
        count_occ Nat.eq_dec (TurnBase.Unregister_calls turn) o = 1%nat)
  /\ (o ∈ TurnBase.queued turn ->
        (1 <= count_occ Nat.eq_dec (TurnBase.Unregister_calls turn) o)%nat)
  /\ (o ∉ TurnBase.queued turn ->
        count_occ Nat.eq_dec (TurnBase.Unregister_calls turn) o = 0%nat)
  /\ (forall obs, TurnBase.queued (TurnBase.QueueForDetach obs turn)
                  = TurnBase.queued turn ++ [obs])
  /\ (forall r : ObserverRegistry.t,
        TurnBase.detachObservers ObserverRegistry.Unregister turn r
        = r ∖ list_to_set (TurnBase.queued turn)).
Proof.
  rewrite Unregister_calls_queued.
  split; [done|]. split; [done|]. split; [done|]. split.
  { intros Hin. apply list_elem_of_In in Hin.
    by apply (count_occ_In Nat.eq_dec) in Hin. }
  split.
  { intros Hnin. apply count_occ_not_In. by rewrite <- list_elem_of_In. }
  split; [intros obs; apply queued_QueueForDetach|].
  intros r. by rewrite detachObservers_fold, unregister_all.
Qed.

End TurnBaseFacts.

(* ===================================================================== *)
(** * The scenarios, evaluated *)
(* ===================================================================== *)

Section ScenarioFacts.
Import ExclusiveTurn ExclusiveTurnManager Scenario.
#[local] Existing Instance left_to_right.

Example s2_tail : tail_ s2 = Some 2%nat /\ turns (store s2) !! 2%nat = Some blocked_turn.
Proof. split; reflexivity. Qed.

Example s3_turn : turns (store s3) !! 2%nat = Some merged_turn.
Proof. vm_compute. reflexivity. Qed.

(** Spec scenario "Input merge": the follow-up turn runs the three
    increments, and its end wakes the three callers. *)
Example input_merge_adds_three (a : nat) : RunMergedInputs merged_turn a = (3 + a)%nat.
Proof. reflexivity. Qed.

Example input_merge_wakes_three :
  (EndTurn 2 s3).2 = [WakeCaller 0; WakeCaller 1; WakeCaller 2].
Proof. vm_compute. reflexivity. Qed.

Example merge_op_tick :
  let '(n', nodes', calls) := EventOpNode.Tick turn5 (EventOpNode.ctor merge_op).1 nodes5 in
  EventStreamNode.events_ (EventOpNode.base n') = [8]
  /\ nodes' !! 11%nat = Some (EventStreamNode.mk [] 5)
  /\ calls = [OnNodePulse 5].
Proof. vm_compute. repeat split; reflexivity. Qed.

(** C2 at the three increments merged into the blocked turn 2. *)
Lemma C2_increments_witness :
  tail_ s2 = Some 2%nat
  /\ turns (store s2) !! 2%nat = Some blocked_turn
  /\ isMergeable_ blocked_turn = true
  /\ BlockingCondition.IsBlocked (blockCondition_ blocked_turn) = true
  /\ (let '(ms, s') := TryMerge_each increments s2 in
      ms = replicate (length increments) true
      /\ exists tr', turns (store s') !! 2%nat = Some tr'
           /\ (merged_ tr').*1 = (merged_ blocked_turn).*1 ++ increments
           /\ forall w, RunMergedInputs tr' w
                        = one_user_closure increments (RunMergedInputs blocked_turn w)).
Proof.
  split; [reflexivity|]. split; [reflexivity|]. split; [reflexivity|]. split; [reflexivity|].
  exact (C2_merged_inputs_run_as_one_closure increments s2 2%nat blocked_turn
           eq_refl eq_refl eq_refl eq_refl).
Defined.

(** C3 at the end of turn 2, which holds the three merged callers. *)
Lemma C3_merged_turn_witness :
  turns (store s3) !! 2%nat = Some merged_turn
  /\ (let '(s', woken) := EndTurn 2 s3 in
      woken = map WakeCaller (merged_ merged_turn).*2
              ++ match successor_ merged_turn with Some x => [WakeTurn x] | None => [] end
      /\ (forall i j c x, woken !! i = Some (WakeCaller c) -> woken !! j = Some (WakeTurn x) ->
            (i < j)%nat)
      /\ (forall c, c ∈ (merged_ merged_turn).*2 -> is_Some (conds (store s3) !! c) ->
            conds (store s') !! c = Some (BlockingCondition.mk false))
      /\ (forall x, successor_ merged_turn = Some x -> is_Some (turns (store s3) !! x) ->
            exists tx, turns (store s') !! x = Some tx
              /\ BlockingCondition.IsBlocked (blockCondition_ tx) = false)
      /\ (tail_ s3 = Some 2%nat -> tail_ s' = None)
      /\ (tail_ s3 <> Some 2%nat -> tail_ s' = tail_ s3)).
Proof.
  assert (H : turns (store s3) !! 2%nat = Some merged_turn) by (vm_compute; reflexivity).
  split; [exact H|].
  exact (C3_EndTurn_wakes_callers_then_successor 2%nat s3 merged_turn H).
Defined.

(** C4 at the start of turn 1, with no tail, and at the start of turn 2
    behind the running turn 1. *)
Lemma C4_second_turn_witness :
  turns (store s0) !! 1%nat = Some new_turn
  /\ tail_ s0 = None
  /\ tail_ (StartTurn_locked 1 s0) = Some 1%nat
  /\ StartTurn_leave 1 (StartTurn_locked 1 s0) = true
  /\ turns (store s1) !! 2%nat = Some new_turn
  /\ tail_ s1 = Some 1%nat
  /\ tail_ (StartTurn_locked 2 s1) = Some 2%nat
  /\ StartTurn_leave 2 (StartTurn_locked 2 s1) = false
  /\ StartTurn_leave 2 (EndTurn 1 (StartTurn_locked 2 s1)).1 = true.
Proof.
  assert (H0 : turns (store s0) !! 1%nat = Some new_turn) by reflexivity.
  assert (H : turns (store s1) !! 2%nat = Some new_turn) by reflexivity.
  assert (H1 : turns (store s1) !! 1%nat = Some new_turn) by reflexivity.
  pose proof (C4_StartTurn_appends_to_tail_and_blocks 1%nat s0 new_turn H0)
    as (Ht0 & _ & Hn & _).
  destruct (Hn eq_refl) as (_ & Hl0).
  pose proof (C4_StartTurn_appends_to_tail_and_blocks 2%nat s1 new_turn H) as (Ht & Hp & _).
  destruct (Hp 1%nat new_turn eq_refl H1) as (_ & _ & Hw & He).
  split; [exact H0|]. split; [reflexivity|]. split; [exact Ht0|]. split; [exact (Hl0 eq_refl)|].
  split; [exact H|]. split; [reflexivity|]. split; [exact Ht|]. split; [exact Hw|exact He].
Defined.

(** C9 at a node that holds events of an earlier turn. *)
Lemma C9_stale_node_witness :
  0 <= TurnBase.Id turn5 < 2 ^ 32
  /\ EventStreamNode.SetCurrentTurn turn5 false false stale_node = EventStreamNode.mk [] 5
  /\ EventStreamNode.SetCurrentTurn turn5 false false
       (EventStreamNode.SetCurrentTurn turn5 false false stale_node)
     = EventStreamNode.SetCurrentTurn turn5 false false stale_node.
Proof.
  assert (H : 0 <= TurnBase.Id turn5 < 2 ^ 32) by (cbn; lia).
  pose proof (C9_SetCurrentTurn_clears_once_per_turn turn5 stale_node H) as (Hd & _ & Hi).
  split; [exact H|]. split; [|exact Hi].
  apply Hd. vm_compute. discriminate.
Defined.

(** C7 as stated fails: [Tick] on a new event source does not complete. *)
Lemma C7_source_Tick_counterexample :
  ~ exists r, EventSourceNode.Tick turn5 (EventSourceNode.ctor (E:=Z)).1 = Ok r.
Proof. intros [r Hr]. discriminate Hr. Qed.

(** C8 as stated fails: an observer queued twice on a turn is passed to
    [Unregister] twice by finalization, not exactly once. *)
Lemma C8_twice_queued_counterexample :
  (7%nat ∈ TurnBase.queued twice_queued)
  /\ TurnBase.Unregister_calls twice_queued = [7%nat; 7%nat]
  /\ count_occ Nat.eq_dec (TurnBase.Unregister_calls twice_queued) 7%nat <> 1%nat.
Proof.
  split; [|split].
  - apply list_elem_of_In. cbn. by left.
  - reflexivity.
  - vm_compute. discriminate.
Qed.

End ScenarioFacts.

(* ===================================================================== *)
(** * What the fused ops collect *)
(* ===================================================================== *)

Section EventOpFacts.
Context {E : Type} {expansion : PackExpansion}.
Import EventOpSpec.
Implicit Types (nodes : gmap nat (EventStreamNode.t E)) (turn : TurnBase.t).

Lemma omap_lookup_seq {X : Type} (pre l : list X) :
  omap (fun i => (pre ++ l) !! i) (seq (length pre) (length l)) = l.
Proof.
  revert pre. induction l as [|x l IH]; intros pre; [done|].
  cbn [length seq]. change (omap ?f (?i :: ?r)) with
    (match f i with Some y => y :: omap f r | None => omap f r end).
  cbv beta. rewrite list_lookup_middle by done. f_equal.
  specialize (IH (pre ++ [x])). rewrite length_app in IH. cbn [length] in IH.
  rewrite Nat.add_1_r, <- app_assoc in IH. exact IH.
Qed.

(** Every expression of a pack is evaluated exactly once. *)
Lemma REACT_EXPAND_PACK_Permutation {X : Type} (l : list X) : REACT_EXPAND_PACK l ≡ₚ l.
Proof.
  unfold REACT_EXPAND_PACK. rewrite (pack_order_perm (length l)).
  assert (Hseq : omap (fun i => l !! i) (seq 0 (length l)) = l)
    by exact (omap_lookup_seq [] l).
  by rewrite Hseq.
Qed.

Lemma REACT_EXPAND_PACK_map {X Y : Type} (f : X -> Y) (l : list X) :
  REACT_EXPAND_PACK (map f l) = map f (REACT_EXPAND_PACK l).
Proof.
  unfold REACT_EXPAND_PACK. rewrite length_map.
  induction (pack_order (length l)) as [|i idx IH]; [done|].
  change (omap ?h (i :: idx)) with
    (match h i with Some y => y :: omap h idx | None => omap h idx end).
  cbv beta. rewrite IH. change (map f l) with (f <$> l). rewrite list_lookup_fmap.
  by destruct (l !! i).
Qed.

Lemma REACT_EXPAND_PACK_singleton {X : Type} (x : X) : REACT_EXPAND_PACK [x] = [x].
Proof. apply Permutation_singleton_r, REACT_EXPAND_PACK_Permutation. Qed.

Lemma map_Forall_ext {X Y : Type} (f g : X -> Y) (l : list X) :
  Forall (fun x => f x = g x) l -> map f l = map g l.
Proof. induction 1 as [|x l Hx _ IH]; [done|]. cbn. by rewrite Hx, IH. Qed.

Lemma holders_expanded (deps : list (Op E)) (p : nat) :
  p ∈ flat_map holders (REACT_EXPAND_PACK deps) <-> p ∈ flat_map holders deps.
Proof.
  rewrite !list_elem_of_In, !in_flat_map.
  split; intros (d & Hd & Hp); exists d; (split; [|done]);
    apply list_elem_of_In; apply list_elem_of_In in Hd.
  - by rewrite <- (REACT_EXPAND_PACK_Permutation deps).
  - by rewrite (REACT_EXPAND_PACK_Permutation deps).
Qed.

Lemma SetCurrentTurn_idem turn (n : EventStreamNode.t E) :
  EventStreamNode.SetCurrentTurn turn false false
    (EventStreamNode.SetCurrentTurn turn false false n)
  = EventStreamNode.SetCurrentTurn turn false false n.
Proof.
  rewrite !SetCurrentTurn_default.
  destruct (EventStreamNode.curTurnId_ n =? TurnBase.Id turn) eqn:H1.
  - by rewrite H1.
  - cbn. by destruct (to_uint (TurnBase.Id turn) =? TurnBase.Id turn).
Qed.

Lemma current_events_visit turn nodes p p' :
  current_events turn (visit turn nodes p') p = current_events turn nodes p.
Proof.
  unfold current_events, visit.
  destruct (nodes !! p') as [n'|] eqn:Hp'; [|done].
  destruct (decide (p' = p)) as [->|Hne].
  - by rewrite lookup_insert_eq, Hp', SetCurrentTurn_idem.
  - by rewrite lookup_insert_ne.
Qed.

Lemma current_events_visit_all turn hs nodes p :
  current_events turn (fold_left (visit turn) hs nodes) p = current_events turn nodes p.
Proof.
  revert nodes. induction hs as [|h hs IH]; intros nodes; [done|].
  cbn. by rewrite IH, current_events_visit.
Qed.

Lemma flat_map_Forall_ext {A B : Type} (f g : A -> list B) (l : list A) :
  Forall (fun x => f x = g x) l -> flat_map f l = flat_map g l.
Proof. induction 1 as [|x l Hx _ IH]; [done|]. cbn. by rewrite Hx, IH. Qed.

Lemma lookup_visit turn nodes p' p :
  visit turn nodes p' !! p
  = if decide (p' = p) then EventStreamNode.SetCurrentTurn turn false false <$> nodes !! p
    else nodes !! p.
Proof.
  unfold visit. destruct (decide (p' = p)) as [->|Hne].
  - destruct (nodes !! p) as [n|] eqn:Hp; [by rewrite lookup_insert_eq|by rewrite Hp].
  - destruct (nodes !! p') as [n'|]; [by rewrite lookup_insert_ne|done].
Qed.

Lemma lookup_visit_all turn hs nodes p :
  fold_left (visit turn) hs nodes !! p
  = if decide (p ∈ hs) then EventStreamNode.SetCurrentTurn turn false false <$> nodes !! p
    else nodes !! p.
Proof.
  revert nodes. induction hs as [|h hs IH]; intros nodes.
  - cbn. rewrite decide_False; [done|]. apply not_elem_of_nil.
  - cbn [fold_left]. rewrite IH, lookup_visit.
    destruct (decide (h = p)) as [->|Hne].
    + rewrite (decide_True (P:=p ∈ p :: hs)) by apply list_elem_of_here.
      destruct (decide (p ∈ hs)); [|done].
      destruct (nodes !! p) as [n|]; [|done]. cbn. by rewrite SetCurrentTurn_idem.
    + destruct (decide (p ∈ hs)) as [Hin|Hnin].
      * rewrite decide_True; [done|]. by apply list_elem_of_further.
      * rewrite decide_False; [done|]. intros Hin. apply elem_of_cons in Hin.
        destruct Hin as [->|Hin]; done.
Qed.

Lemma visit_all_twice turn hs nodes :
  fold_left (visit turn) hs (fold_left (visit turn) hs nodes) = fold_left (visit turn) hs nodes.
Proof.
  apply map_eq. intros p. rewrite (lookup_visit_all turn hs (fold_left _ _ _)).
  destruct (decide (p ∈ hs)) as [Hin|Hnin]; [|done].
  rewrite lookup_visit_all, decide_True by done.
  destruct (nodes !! p) as [n|]; [|done]. cbn. by rewrite SetCurrentTurn_idem.
Qed.

(** Visiting the same nodes in another order gives the same nodes. *)
Lemma visit_all_same_nodes turn (hs1 hs2 : list nat) nodes :
  (forall p, p ∈ hs1 <-> p ∈ hs2) ->
  fold_left (visit turn) hs1 nodes = fold_left (visit turn) hs2 nodes.
Proof.
  intros Hmem. apply map_eq. intros p. rewrite !lookup_visit_all.
  destruct (decide (p ∈ hs1)) as [H1|H1], (decide (p ∈ hs2)) as [H2|H2]; try done.
  - by apply Hmem in H1.
  - by apply Hmem in H2.
Qed.

(** What an op denotes does not change when nodes are visited first. *)
Lemma events_of_visit_all (op : Op E) turn :
  forall hs nodes, events_of op turn (fold_left (visit turn) hs nodes) = events_of op turn nodes.
Proof.
  induction op as [p|deps IH|f dep IH|g dep IH] using Op_nested_ind; intros hs nodes; cbn.
  - apply current_events_visit_all.
  - do 2 f_equal. apply map_Forall_ext.
    eapply Forall_impl; [exact IH|]. intros d Hd. apply Hd.
  - by rewrite IH.
  - by rewrite IH.
Qed.

(** A merge over dependencies taken in a given order. *)
Lemma Collect_in_order turn (A : Type) (collector : E -> A -> A) (ds : list (Op E)) :
  Forall (fun d => forall (A : Type) (collector : E -> A -> A) nodes (a : A),
            EventOp.Collect d turn collector (nodes, a)
            = (fold_left (visit turn) (holders d) nodes,
               fold_left (fun a v => collector v a) (events_of d turn nodes) a)) ds ->
  forall nodes (a : A),
  fold_left (fun st collect => collect st)
    (map (fun d => EventOp.Collect d turn collector) ds) (nodes, a)
  = (fold_left (visit turn) (flat_map holders ds) nodes,
     fold_left (fun a v => collector v a)
       (concat (map (fun d => events_of d turn nodes) ds)) a).
Proof.
  induction 1 as [|d ds Hd _ IHds]; intros nodes a; [done|].
  cbn [map fold_left flat_map concat]. rewrite Hd, IHds.
  rewrite !fold_left_app. f_equal. f_equal. f_equal.
  apply map_Forall_ext, Forall_forall. intros d' _. apply events_of_visit_all.
Qed.

Lemma fold_FilteredEventCollector {A : Type} (filter : E -> bool) (collector : E -> A -> A)
    (evs : list E) (a : A) :
  fold_left (fun a v => EventOp.FilteredEventCollector filter collector v a) evs a
  = fold_left (fun a v => collector v a) (List.filter filter evs) a.
Proof.
  revert a. induction evs as [|e evs IH]; intros a; [done|].
  cbn. unfold EventOp.FilteredEventCollector at 2. destruct (filter e); cbn; apply IH.
Qed.

Lemma fold_TransformEventCollector {A : Type} (func : E -> E) (collector : E -> A -> A)
    (evs : list E) (a : A) :
  fold_left (fun a v => EventOp.TransformEventCollector func collector v a) evs a
  = fold_left (fun a v => collector v a) (map func evs) a.
Proof.
  revert a. induction evs as [|e evs IH]; intros a; [done|]. cbn. apply IH.
Qed.

(** [Collect] visits the held nodes and feeds the collector the events
    the op denotes, in order. *)
Theorem Collect_denotes_events_of (op : Op E) turn :
  forall (A : Type) (collector : E -> A -> A) nodes (a : A),
  EventOp.Collect op turn collector (nodes, a)
  = (fold_left (visit turn) (holders op) nodes,
     fold_left (fun a v => collector v a) (events_of op turn nodes) a).
Proof.
  induction op as [p|deps IH|f dep IH|g dep IH] using Op_nested_ind;
    intros A collector nodes a; cbn [EventOp.Collect holders events_of].
  - unfold EventOp.collectNode, current_events, visit, EventOp.Nodes.
    cbn [fst snd fold_left]. destruct (nodes !! p); reflexivity.
  - rewrite !REACT_EXPAND_PACK_map, Collect_in_order.
    + f_equal. apply visit_all_same_nodes, holders_expanded.
    + by rewrite (REACT_EXPAND_PACK_Permutation deps).
  - by rewrite IH, fold_FilteredEventCollector.
  - by rewrite IH, fold_TransformEventCollector.
Qed.

Lemma fold_EventCollector (evs acc : list E) :
  fold_left (fun a v => EventOpNode.EventCollector v a) evs acc = acc ++ evs.
Proof.
  revert acc. induction evs as [|e evs IH]; intros acc; cbn; [by rewrite app_nil_r|].
  rewrite IH. unfold EventOpNode.EventCollector. by rewrite <- app_assoc.
Qed.

(** [Tick] in terms of what the op denotes. *)
Lemma Tick_events_of turn (n : EventOpNode.t E) nodes :
  EventOpNode.Tick turn n nodes
  = (EventOpNode.mk
       (EventStreamNode.mk (events_of (EventOpNode.op_ n) turn nodes)
                           (to_uint (TurnBase.Id turn)))
       (EventOpNode.op_ n) (EventOpNode.wasOpStolen_ n),
     fold_left (visit turn) (holders (EventOpNode.op_ n)) nodes,
     if negb (bool_decide (events_of (EventOpNode.op_ n) turn nodes = []))
     then [OnNodePulse (TurnBase.Id turn)] else [OnNodeIdlePulse (TurnBase.Id turn)]).
Proof.
  unfold EventOpNode.Tick. rewrite SetCurrentTurn_force, Collect_denotes_events_of.
  cbn [negb EventStreamNode.Events EventStreamNode.events_ EventStreamNode.curTurnId_].
  by rewrite fold_EventCollector.
Qed.

(** X1. The effect of [Collect] on the dependency nodes, for every
    collector: no node is created or removed, a node the op does not hold
    is left as it is, and a node the op holds is left as one call of
    [SetCurrentTurn(turn)] leaves it, however often the op holds it. *)
Theorem X1_Collect_touches_held_nodes_only (op : Op E) turn (A : Type)
    (collector : E -> A -> A) nodes (a : A) :
  let nodes' : gmap nat (EventStreamNode.t E) :=
    (EventOp.Collect op turn collector (nodes, a)).1 in
  dom nodes' = dom nodes
  /\ (forall p, p ∉ holders op -> nodes' !! p = nodes !! p)
  /\ (forall p, p ∈ holders op ->
        nodes' !! p = EventStreamNode.SetCurrentTurn turn false false <$> nodes !! p).
Proof.
  cbn zeta. rewrite Collect_denotes_events_of. cbn [fst].
  split; [|split].
  - apply set_eq. intros p. rewrite !elem_of_dom, lookup_visit_all.
    destruct (decide (p ∈ holders op)); [|done]. by rewrite fmap_is_Some.
  - intros p Hp. by rewrite lookup_visit_all, decide_False.
  - intros p Hp. by rewrite lookup_visit_all, decide_True.
Qed.

(** X2. What [Collect] hands to its collector, for every collector and
    every order of pack expansion: the events of a held node whose
    recorded turn is [turn], nothing for a held node of another turn; for
    a merge, the events of its dependencies, one dependency after the
    other in the order in which the pack expansion evaluates them, which
    the sources leave open (each dependency once: a rearrangement of the
    left-to-right concatenation); for a filter, the accepted events of its
    dependency, in order; for a transform, the images of the events of
    its dependency, in order. *)
Theorem X2_Collect_feeds_denoted_events (op : Op E) turn (A : Type)
    (collector : E -> A -> A) nodes (a : A) :
  (EventOp.Collect op turn collector (nodes, a)).2
  = fold_left (fun a v => collector v a) (events_of op turn nodes) a
  /\ (forall p n, nodes !! p = Some n ->
        events_of (NodeHolder p) turn nodes
        = if EventStreamNode.curTurnId_ n =? TurnBase.Id turn
          then EventStreamNode.events_ n else [])
  /\ (forall p, nodes !! p = None -> events_of (NodeHolder (E:=E) p) turn nodes = [])
  /\ (forall deps,
        events_of (EventMergeOp deps) turn nodes
        = concat (REACT_EXPAND_PACK (map (fun d => events_of d turn nodes) deps))
        /\ events_of (EventMergeOp deps) turn nodes
           ≡ₚ concat (map (fun d => events_of d turn nodes) deps))
  /\ (forall f dep,
        events_of (EventFilterOp f dep) turn nodes = List.filter f (events_of dep turn nodes))
  /\ (forall g dep,
        events_of (EventTransformOp g dep) turn nodes = map g (events_of dep turn nodes)).
Proof.
  rewrite Collect_denotes_events_of. cbn [snd].
  split; [done|]. split.
  { intros p n Hp. cbn. unfold current_events. rewrite Hp, SetCurrentTurn_default.
    by destruct (EventStreamNode.curTurnId_ n =? TurnBase.Id turn). }
  split.
  { intros p Hp. cbn. unfold current_events. by rewrite Hp. }
  split; [|done].
  intros deps. split; [done|]. cbn [events_of].
  by rewrite (REACT_EXPAND_PACK_Permutation (map _ deps)).
Qed.

(** X3. Ticking an event-op node a second time in the same turn changes
    nothing: the node, the dependency nodes and the report to the engine
    are those of the first tick. *)
Theorem X3_Tick_twice_in_one_turn turn (n : EventOpNode.t E) nodes :
  let '(n1, nodes1, calls1) := EventOpNode.Tick turn n nodes in
  EventOpNode.Tick turn n1 nodes1 = (n1, nodes1, calls1).
Proof.
  rewrite Tick_events_of. rewrite Tick_events_of. cbn [EventOpNode.op_ EventOpNode.wasOpStolen_].
  by rewrite events_of_visit_all, visit_all_twice.
Qed.

Lemma events_of_nil (op : Op E) turn nodes :
  (forall p n, p ∈ holders op -> nodes !! p = Some n ->
     EventStreamNode.curTurnId_ n = TurnBase.Id turn -> EventStreamNode.events_ n = []) ->
  events_of op turn nodes = [].
Proof.
  induction op as [p|deps IH|f dep IH|g dep IH] using Op_nested_ind; cbn; intros Hst.
  - unfold current_events. destruct (nodes !! p) as [n|] eqn:Hp; [|done].
    rewrite SetCurrentTurn_default.
    destruct (Z.eqb_spec (EventStreamNode.curTurnId_ n) (TurnBase.Id turn)) as [Heq|Hne]; [|done].
    apply (Hst p n); [apply list_elem_of_here|done|done].
  - assert (Hnil : map (fun d => events_of d turn nodes) deps = map (fun _ => []) deps).
    { apply map_Forall_ext, Forall_forall. intros d Hd.
      rewrite Forall_forall in IH. apply (IH d Hd). intros p n Hin. apply Hst.
      apply list_elem_of_In, in_flat_map. exists d. by rewrite <- !list_elem_of_In. }
    rewrite Hnil, REACT_EXPAND_PACK_map.
    by induction (REACT_EXPAND_PACK deps) as [|d ds IHds].
  - by rewrite IH.
  - by rewrite IH.
Qed.

(** X4. An event-op node none of whose held nodes has events of the
    turn (each held node is of another turn, or is of this turn and
    empty) collects nothing and reports [OnNodeIdlePulse]: events left
    from earlier turns are never passed on. *)
Theorem X4_Tick_over_stale_nodes_idles turn (n : EventOpNode.t E) nodes :
  (forall p d, p ∈ holders (EventOpNode.op_ n) -> nodes !! p = Some d ->
     EventStreamNode.curTurnId_ d = TurnBase.Id turn -> EventStreamNode.events_ d = []) ->
  let '(n', _, calls) := EventOpNode.Tick turn n nodes in
  EventStreamNode.events_ (EventOpNode.base n') = []
  /\ calls = [OnNodeIdlePulse (TurnBase.Id turn)].
Proof.
  intros Hst. rewrite Tick_events_of, (events_of_nil _ _ _ Hst). by cbn.
Qed.

Lemma single_holder (op : Op E) turn nodes p :
  op = NodeHolder p \/ op = EventMergeOp [NodeHolder p] ->
  events_of op turn nodes = current_events turn nodes p
  /\ fold_left (visit turn) (holders op) nodes = visit turn nodes p.
Proof.
  intros [->| ->]; [done|]. cbn [events_of holders map flat_map app fold_left].
  rewrite REACT_EXPAND_PACK_singleton. cbn. by rewrite app_nil_r.
Qed.

(** X5. From input to dependent.  Let an event source with staged events
    publish in [turn], whose id fits [uint], and let an event-op node hold
    the source, as its op or as the one dependency of a merge.  Ticked in
    [turn], the dependent receives exactly the
    published events and reports [OnNodePulse].  Ticked in a turn with
    another id, it receives nothing, reports [OnNodeIdlePulse], and the
    source's events are cleared. *)
Theorem X5_published_events_reach_dependents_in_turn turn turn2
    (src : EventSourceNode.t E) (n : EventOpNode.t E) nodes p :
  0 <= TurnBase.Id turn < 2 ^ 32 ->
  EventStreamNode.events_ (EventSourceNode.base src) <> [] ->
  EventSourceNode.changedFlag_ src = false ->
  nodes !! p = Some (EventSourceNode.base (EventSourceNode.ApplyInput turn src).1.2) ->
  EventOpNode.op_ n = NodeHolder p \/ EventOpNode.op_ n = EventMergeOp [NodeHolder p] ->
  TurnBase.Id turn2 <> TurnBase.Id turn ->
  (let '(n', _, calls) := EventOpNode.Tick turn n nodes in
   EventStreamNode.events_ (EventOpNode.base n')
   = EventStreamNode.events_ (EventSourceNode.base src)
   /\ calls = [OnNodePulse (TurnBase.Id turn)])
  /\ (let '(n', nodes', calls) := EventOpNode.Tick turn2 n nodes in
      EventStreamNode.events_ (EventOpNode.base n') = []
      /\ calls = [OnNodeIdlePulse (TurnBase.Id turn2)]
      /\ nodes' !! p = Some (EventStreamNode.mk [] (to_uint (TurnBase.Id turn2)))).
Proof.
  intros Hid Hev Hfl Hp Hop Hne.
  rewrite (ApplyInput_true turn src Hev Hfl) in Hp. cbn in Hp.
  rewrite (to_uint_small _ Hid) in Hp.
  rewrite !Tick_events_of.
  destruct (single_holder _ turn nodes p Hop) as [He1 Hv1].
  destruct (single_holder _ turn2 nodes p Hop) as [He2 Hv2].
  rewrite He1, He2. unfold EventOp.Nodes. rewrite ?Hv1, ?Hv2.
  unfold current_events, visit. rewrite Hp, !SetCurrentTurn_default.
  cbn [EventStreamNode.curTurnId_ EventStreamNode.events_]. rewrite Z.eqb_refl.
  destruct (Z.eqb_spec (TurnBase.Id turn) (TurnBase.Id turn2)) as [Heq|_]; [by symmetry in Heq|].
  cbn [EventStreamNode.events_ EventOpNode.base].
  split.
  - split; [done|]. rewrite bool_decide_eq_false_2; done.
  - split; [done|]. split; [done|]. unfold EventOp.Nodes. by rewrite lookup_insert_eq.
Qed.

(** X6. Fusing a filter or a transform into the op below it.  Let a
    node with op [inner] have been ticked in [turn], whose id fits [uint],
    and stand at address [q].  A node whose op filters (transforms) the
    events of holder [q] and a node whose op filters (transforms) [inner]
    directly, ticked in [turn], end with the same events and make the
    same report; and the fused node leaves the nodes below as the tick of
    the inner node left them. *)
Theorem X6_fused_op_collects_the_same turn (inner : Op E) nodes q
    (f : E -> bool) (g : E -> E) :
  0 <= TurnBase.Id turn < 2 ^ 32 ->
  let tick := fun op nodes => EventOpNode.Tick turn (EventOpNode.ctor op).1 nodes in
  let below := tick inner nodes in
  let nodes2 := <[q := EventOpNode.base below.1.1]> below.1.2 in
  let same := fun (outer fused : EventOpNode.t E * EventOp.Nodes * list EngineCall) =>
    EventStreamNode.events_ (EventOpNode.base outer.1.1)
    = EventStreamNode.events_ (EventOpNode.base fused.1.1)
    /\ outer.2 = fused.2
    /\ fused.1.2 = below.1.2 in
  same (tick (EventFilterOp f (NodeHolder q)) nodes2) (tick (EventFilterOp f inner) nodes)
  /\ same (tick (EventTransformOp g (NodeHolder q)) nodes2)
          (tick (EventTransformOp g inner) nodes).
Proof.
  intros Hid. cbv beta zeta. rewrite !Tick_events_of.
  cbn [fst snd EventOpNode.ctor EventOpNode.op_ EventOpNode.base EventStreamNode.events_
       events_of holders].
  assert (Hq : current_events turn
                 (<[q:=EventStreamNode.mk (events_of inner turn nodes)
                        (to_uint (TurnBase.Id turn))]>
                    (fold_left (visit turn) (holders inner) nodes)) q
               = events_of inner turn nodes).
  { unfold current_events. rewrite lookup_insert_eq, SetCurrentTurn_default.
    cbn [EventStreamNode.curTurnId_]. rewrite (to_uint_small _ Hid), Z.eqb_refl. done. }
  unfold EventOp.Nodes. rewrite Hq. done.
Qed.

Lemma StealOp_not_stolen (n : EventOpNode.t E) :
  EventOpNode.wasOpStolen_ n = false ->
  EventOpNode.StealOp n
  = Ok (EventOpNode.op_ n, EventOpNode.mk (EventOpNode.base n) (EventOpNode.op_ n) true,
        [OpDetach]).
Proof. intros Hst. unfold EventOpNode.StealOp. rewrite Hst. reflexivity. Qed.

Lemma StealOp_stolen (n : EventOpNode.t E) :
  EventOpNode.wasOpStolen_ n = true ->
  EventOpNode.StealOp n = AssertionFailed "Op was already stolen.".
Proof. intros Hst. unfold EventOpNode.StealOp. rewrite Hst. reflexivity. Qed.

(** X7. Over the life of an event-op node the op is attached once and
    detached once.  With no call or one call of [StealOp] the life ends
    with the destructor and the calls made are [OnNodeCreate], the
    attach, the detach, [OnNodeDestroy], in this order.  A second call of
    [StealOp] fails the assertion and stops the program: the calls made
    are [OnNodeCreate], the attach and the one detach, and the destructor
    does not run. *)
Theorem X7_op_attached_once_detached_once (op : Op E) (steals : nat) :
  lifetime_calls op steals
  = if decide (steals <= 1)%nat
    then ([OnNodeCreate; OpAttach; OpDetach; OnNodeDestroy], Ok tt)
    else ([OnNodeCreate; OpAttach; OpDetach], AssertionFailed "Op was already stolen.").
Proof.
  unfold lifetime_calls. cbn [EventOpNode.ctor].
  destruct steals as [|[|k]].
  - by rewrite decide_True by lia.
  - rewrite decide_True by lia. cbn [steal_attempts].
    by rewrite StealOp_not_stolen by done.
  - rewrite decide_False by lia. cbn [steal_attempts].
    rewrite StealOp_not_stolen by done. by rewrite StealOp_stolen by done.
Qed.

(** X8. Batches of an event source.  Values staged by successive
    [AddInput] calls accumulate in order; the first [AddInput] after a
    publication discards the published events; [curTurnId_] is not
    touched; and the next [ApplyInput] publishes the batch. *)
Theorem X8_AddInput_builds_one_batch (v : E) (vs : list E) (src : EventSourceNode.t E) turn :
  let staged := fold_left (fun n v => EventSourceNode.AddInput v n) (v :: vs) src in
  EventStreamNode.events_ (EventSourceNode.base staged)
  = (if EventSourceNode.changedFlag_ src then []
     else EventStreamNode.events_ (EventSourceNode.base src)) ++ v :: vs
  /\ EventSourceNode.changedFlag_ staged = false
  /\ EventStreamNode.curTurnId_ (EventSourceNode.base staged)
     = EventStreamNode.curTurnId_ (EventSourceNode.base src)
  /\ EventSourceNode.ApplyInput turn staged
     = (true,
        EventSourceNode.mk
          (EventStreamNode.mk (EventStreamNode.events_ (EventSourceNode.base staged))
                              (to_uint (TurnBase.Id turn))) true,
        [OnTurnInputChange (TurnBase.Id turn)]).
Proof.
  cbn zeta.
  assert (Hfold : forall (vs : list E) (n : EventSourceNode.t E),
    EventSourceNode.changedFlag_ n = false ->
    fold_left (fun n v => EventSourceNode.AddInput v n) vs n
    = EventSourceNode.mk
        (EventStreamNode.mk (EventStreamNode.events_ (EventSourceNode.base n) ++ vs)
                            (EventStreamNode.curTurnId_ (EventSourceNode.base n))) false).
  { clear. induction vs as [|w ws IH]; intros n Hfl.
    - cbn. rewrite app_nil_r. destruct n as [[evs id] fl]. cbn in *. by subst.
    - cbn [fold_left]. rewrite IH.
      + unfold EventSourceNode.AddInput. rewrite Hfl. cbn. by rewrite <- app_assoc.
      + unfold EventSourceNode.AddInput. by rewrite Hfl. }
  cbn [fold_left]. rewrite Hfold by (by destruct (AddInput_stages v src)).
  assert (Hfirst : EventStreamNode.events_ (EventSourceNode.base (EventSourceNode.AddInput v src))
                   = (if EventSourceNode.changedFlag_ src then []
                      else EventStreamNode.events_ (EventSourceNode.base src)) ++ [v]
                   /\ EventStreamNode.curTurnId_ (EventSourceNode.base (EventSourceNode.AddInput v src))
                      = EventStreamNode.curTurnId_ (EventSourceNode.base src)).
  { unfold EventSourceNode.AddInput. by destruct (EventSourceNode.changedFlag_ src). }
  destruct Hfirst as [Hev Hid]. cbn [EventSourceNode.base EventSourceNode.changedFlag_
    EventStreamNode.events_ EventStreamNode.curTurnId_].
  rewrite Hev, Hid, <- app_assoc. cbn [app].
  split; [done|]. split; [done|]. split; [done|].
  apply ApplyInput_true; cbn; [|done].
  by destruct (if EventSourceNode.changedFlag_ src then _ else _).
Qed.

End EventOpFacts.

(* ===================================================================== *)
(** * The turn manager in use: one turn at a time, in order *)
(* ===================================================================== *)

Section ProtocolFacts.
Context {World : Type}.
Import ExclusiveTurn ExclusiveTurnManager Protocol.
Implicit Types (s : ExclusiveTurnManager.t World) (q : list nat).
Implicit Types (tr : ExclusiveTurn.t World).

Lemma chain_ok_member q s turn :
  chain_ok q s -> turn ∈ q ->
  exists i tr, q !! i = Some turn /\ turns (store s) !! turn = Some tr
    /\ BlockingCondition.blocked_ (blockCondition_ tr) = negb (bool_decide (i = 0%nat))
    /\ successor_ tr = q !! S i.
Proof.
  intros (_ & _ & Hq) Hin. apply list_elem_of_lookup in Hin as [i Hi].
  destruct (Hq i turn Hi) as (tr & ? & ? & ?). by exists i, tr.
Qed.

Lemma chain_ok_same_turns q s s' :
  tail_ s' = tail_ s ->
  (forall turn tr, turn ∈ q -> turns (store s) !! turn = Some tr ->
     exists tr', turns (store s') !! turn = Some tr'
       /\ blockCondition_ tr' = blockCondition_ tr /\ successor_ tr' = successor_ tr) ->
  chain_ok q s -> chain_ok q s'.
Proof.
  intros Htl Hsame (Ht & Hnd & Hq). split; [by rewrite Htl|]. split; [done|].
  intros i turn Hi. destruct (Hq i turn Hi) as (tr & Hl & Hb & Hs).
  destruct (Hsame turn tr) as (tr' & Hl' & Hb' & Hs'); [by eapply list_elem_of_lookup_2|done|].
  exists tr'. by rewrite Hb', Hs'.
Qed.

Lemma chain_ok_construct q s p tr0 :
  turns (store s) !! p = None -> chain_ok q s -> chain_ok q (construct p tr0 s).
Proof.
  intros Hp. apply chain_ok_same_turns; [done|].
  intros turn tr Hin Hl. exists tr. split; [|done]. cbn.
  rewrite lookup_insert_ne; [done|]. intros ->. congruence.
Qed.

Lemma chain_ok_destroy q s p :
  p ∉ q -> chain_ok q s -> chain_ok q (destroy p s).
Proof.
  intros Hp. apply chain_ok_same_turns; [done|].
  intros turn tr Hin Hl. exists tr. split; [|done]. cbn.
  rewrite lookup_delete_ne; [done|]. by intros ->.
Qed.

Lemma chain_ok_start q s turn tr :
  chain_ok q s -> turn ∉ q ->
  turns (store s) !! turn = Some tr ->
  BlockingCondition.blocked_ (blockCondition_ tr) = false ->
  successor_ tr = None ->
  chain_ok (q ++ [turn]) (StartTurn_locked turn s).
Proof.
  intros (Ht & Hnd & Hq) Hnin Hl Hb Hs.
  assert (Hnd' : NoDup (q ++ [turn])).
  { apply NoDup_app. split; [done|]. split; [|apply NoDup_singleton].
    intros x Hx Hx'. apply list_elem_of_singleton in Hx'. by subst. }
  split; [by rewrite last_snoc|]. split; [done|].
  unfold StartTurn_locked. rewrite Ht. cbn [store].
  destruct (last q) as [p|] eqn:Hlast.
  - apply last_Some in Hlast as [q' ->].
    assert (Hpi : (q' ++ [p]) !! length q' = Some p).
    { rewrite lookup_app_r by lia. by rewrite Nat.sub_diag. }
    assert (Hpne : p <> turn).
    { intros ->. apply Hnin. by eapply list_elem_of_lookup_2. }
    intros i x Hi. rewrite Append_turns.
    destruct (decide (i < length (q' ++ [p]))%nat) as [Hlt|Hge].
    + rewrite lookup_app_l in Hi by done.
      destruct (Hq i x Hi) as (tx & Hlx & Hbx & Hsx).
      assert (Hxne : x <> turn).
      { intros ->. apply Hnin. by eapply list_elem_of_lookup_2. }
      rewrite lookup_alter_ne by done.
      destruct (decide (x = p)) as [->|Hxp].
      * assert (i = length q') as -> by exact (NoDup_lookup _ _ _ _ Hnd Hi Hpi).
        rewrite lookup_alter_eq, Hlx. eexists. split; [reflexivity|]. cbn.
        split; [done|]. rewrite lookup_app_r by (rewrite length_app; cbn; lia).
        rewrite length_app. cbn. by replace (S (length q') - (length q' + 1))%nat with 0%nat by lia.
      * rewrite lookup_alter_ne by done. exists tx. split; [done|]. split; [done|].
        rewrite Hsx. rewrite length_app in Hlt. cbn in Hlt.
        assert (i <> length q') by (intros ->; congruence).
        rewrite (lookup_app_l (q' ++ [p])); [done|]. rewrite length_app. cbn. lia.
    + rewrite lookup_app_r in Hi by lia.
      destruct (i - length (q' ++ [p]))%nat as [|k] eqn:Hk; [|done].
      injection Hi as <-.
      rewrite lookup_alter_eq, lookup_alter_ne, Hl by done.
      rewrite length_app in Hge. cbn [length] in Hge.
      eexists. split; [reflexivity|]. cbn. split.
      * rewrite bool_decide_eq_false_2; [done|]. lia.
      * rewrite Hs. symmetry. apply lookup_ge_None. rewrite !length_app. cbn. lia.
  - apply last_None in Hlast as ->. intros i x Hi.
    destruct i as [|i]; [|done]. injection Hi as <-.
    exists tr. by rewrite Hb, Hs.
Qed.

Lemma alter_Some {A : Type} (f : A -> A) (m : gmap nat A) (i : nat) (x : A) :
  m !! i = Some x -> alter f i m = <[i := f x]> m.
Proof.
  intros Hi. apply map_eq. intros j. destruct (decide (i = j)) as [<-|Hne].
  - by rewrite lookup_alter_eq, lookup_insert_eq, Hi.
  - by rewrite lookup_alter_ne, lookup_insert_ne.
Qed.

(** A call of [TryMerge] either changes nothing or appends to a
    mergeable, blocked tail and blocks a new condition. *)
Lemma TryMerge_call_cases (f : World -> World) s :
  TryMerge_call f s = s
  \/ exists p tr, tail_ s = Some p /\ turns (store s) !! p = Some tr
       /\ isMergeable_ tr = true
       /\ BlockingCondition.blocked_ (blockCondition_ tr) = true
       /\ TryMerge_call f s
          = ExclusiveTurnManager.mk (Some p)
              (mkStore (<[p := emplace_back (f, new_caller s) tr]> (turns (store s)))
                       (<[new_caller s := BlockingCondition.mk true]> (conds (store s)))).
Proof.
  unfold TryMerge_call, TryMerge_enter, TryMerge_locked.
  pose proof (free_alloc_caller s) as Hfree.
  destruct (tail_ (alloc_caller s)) as [p|] eqn:Htl; cbn in Htl; [|by left].
  destruct (ExclusiveTurn.TryMerge p f (new_caller s) (store (alloc_caller s)))
    as [merged m'] eqn:HTM.
  destruct (turn_TryMerge_inv _ _ _ _ _ _ HTM) as [[-> (tr & Hl & Hm & Hb)]|[-> ->]].
  - right. exists p, tr.
    rewrite (turn_TryMerge_true p f (new_caller s) _ tr Hl Hm Hb) in HTM.
    injection HTM as <-. cbn in Hl.
    split; [done|]. split; [done|]. split; [done|]. split; [done|].
    unfold on_turn, on_cond, alloc_caller. cbn [turns conds store tail_].
    by rewrite (alter_Some _ _ _ _ Hl), alter_insert_eq.
  - left. etrans; [|exact Hfree]. unfold free_caller, alloc_caller. cbn. by rewrite Htl.
Qed.

Lemma chain_ok_merge q s (f : World -> World) :
  chain_ok q s -> chain_ok q (TryMerge_call f s).
Proof.
  destruct (TryMerge_call_cases f s) as [->|(p & tr & Htl & Hl & _ & _ & ->)]; [done|].
  apply chain_ok_same_turns; [done|].
  intros turn tx _ Hx. cbn. destruct (decide (p = turn)) as [->|Hne].
  - rewrite lookup_insert_eq. eexists. split; [reflexivity|]. by simplify_eq.
  - rewrite lookup_insert_ne by done. by exists tx.
Qed.

Lemma TryMerge_leave_inv caller s s' :
  TryMerge_leave true caller s = Some (true, s') ->
  s' = free_caller caller s
  /\ conds (store s) !! caller = Some (BlockingCondition.mk false).
Proof.
  unfold TryMerge_leave, BlockingCondition.WaitForUnblock.
  destruct (conds (store s) !! caller) as [[[|]]|]; cbn; intros [=]. by subst.
Qed.

Lemma chain_ok_leave q s caller s' :
  TryMerge_leave true caller s = Some (true, s') -> chain_ok q s -> chain_ok q s'.
Proof.
  intros [-> _]%TryMerge_leave_inv. apply chain_ok_same_turns; [done|].
  intros turn tx _ Hx. by exists tx.
Qed.

Lemma filter_ne_not_in (x : nat) (l : list nat) :
  x ∉ l -> filter (fun y => y <> x) l = l.
Proof.
  induction l as [|y l IH]; intros Hnin; [done|].
  apply not_elem_of_cons in Hnin as [Hne Hnin].
  rewrite filter_cons_True by done. by rewrite IH.
Qed.

(** Only the oldest started turn gets through [WaitForUnblock]. *)
Lemma chain_ok_running q s turn :
  chain_ok q s -> turn ∈ q -> StartTurn_leave turn s = true ->
  exists q', q = turn :: q' /\ turn ∉ q'.
Proof.
  intros Hok Hin Hrun. destruct (chain_ok_member _ _ _ Hok Hin) as (i & tr & Hi & Hl & Hb & _).
  unfold StartTurn_leave, ExclusiveTurn.WaitForUnblock, BlockingCondition.WaitForUnblock in Hrun.
  rewrite Hl, Hb in Hrun. destruct i as [|i]; [|done].
  destruct q as [|x q']; [done|]. injection Hi as ->. exists q'. split; [done|].
  destruct Hok as (_ & Hnd & _). by apply NoDup_cons in Hnd as [? _].
Qed.

Lemma chain_ok_end q s turn :
  chain_ok q s -> turn ∈ q -> StartTurn_leave turn s = true ->
  chain_ok (filter (fun x => x <> turn) q) (EndTurn turn s).1.
Proof.
  intros Hok Hin Hrun.
  destruct (chain_ok_running _ _ _ Hok Hin Hrun) as (q' & -> & Hnin).
  rewrite filter_cons_False by (intros H; by apply H).
  rewrite filter_ne_not_in by done.
  destruct Hok as (Ht & Hnd & Hq). apply NoDup_cons in Hnd as [_ Hnd'].
  destruct (Hq 0%nat turn eq_refl) as (tr & Hl & _ & Hs). cbn in Hs.
  unfold EndTurn. rewrite (UnblockSuccessors_spec _ _ _ Hl), Hs.
  assert (Htail : (if decide (tail_ s = Some turn) then None else tail_ s) = last q').
  { rewrite Ht, last_cons. destruct (last q') as [y|] eqn:Hlast.
    - rewrite decide_False; [done|]. intros [= ->]. apply Hnin.
      apply last_Some in Hlast as [l ->]. apply elem_of_app. right. apply list_elem_of_here.
    - by rewrite decide_True. }
  destruct q' as [|x q''].
  - cbn. split; [done|]. split; [apply NoDup_nil_2|]. intros i y Hi. done.
  - cbn [lookup list_lookup fst store tail_]. split; [done|]. split; [done|].
    intros i y Hi. destruct (Hq (S i) y Hi) as (ty & Hly & Hby & Hsy).
    cbn. rewrite unblock_callers_turns. destruct i as [|i].
    + injection Hi as ->. rewrite lookup_alter_eq, Hly. eexists. split; [reflexivity|].
      split; [done|]. exact Hsy.
    + assert (Hne : x <> y).
      { intros ->. apply NoDup_cons in Hnd' as [Hx _]. apply Hx.
        by eapply list_elem_of_lookup_2. }
      rewrite lookup_alter_ne by done. exists ty. split; [done|]. split; [done|]. exact Hsy.
Qed.

Lemma reachable_chain_ok q s : reachable q s -> chain_ok q s.
Proof.
  induction 1 as [|q s p eim flags _ IH Hp|q s p _ IH Hp|q s turn eim flags _ IH Hnin Hl
                 |q s f _ IH|q s caller s' _ IH Hleave|q s turn _ IH Hin Hrun].
  - split; [done|]. split; [apply NoDup_nil_2|]. intros i turn Hi. done.
  - by apply chain_ok_construct.
  - by apply chain_ok_destroy.
  - by apply (chain_ok_start q s turn (ctor eim flags)).
  - by apply chain_ok_merge.
  - by eapply chain_ok_leave.
  - by apply chain_ok_end.
Qed.

Lemma waiting_elem q s c :
  c ∈ waiting q s
  <-> exists turn tr, turn ∈ q /\ turns (store s) !! turn = Some tr /\ c ∈ (merged_ tr).*2.
Proof.
  unfold waiting. rewrite list_elem_of_In, in_flat_map. split.
  - intros (turn & Hin & Hc). destruct (turns (store s) !! turn) as [tr|] eqn:Hl; [|done].
    exists turn, tr. by rewrite !list_elem_of_In.
  - intros (turn & tr & Hin & Hl & Hc). exists turn. rewrite Hl.
    by rewrite <- !list_elem_of_In.
Qed.

Lemma waiting_app q1 q2 s : waiting (q1 ++ q2) s = waiting q1 s ++ waiting q2 s.
Proof. unfold waiting. apply flat_map_app. Qed.

Lemma waiting_same_merged q s s' :
  (forall turn, turn ∈ q ->
     merged_ <$> turns (store s') !! turn = merged_ <$> turns (store s) !! turn) ->
  waiting q s' = waiting q s.
Proof.
  intros Hsame. unfold waiting. apply flat_map_Forall_ext, Forall_forall. intros turn Hin.
  specialize (Hsame turn Hin).
  destruct (turns (store s') !! turn), (turns (store s) !! turn); cbn in Hsame;
    try done. injection Hsame as Hm. by rewrite Hm.
Qed.

Lemma callers_ok_frame q s s' :
  (forall turn, turn ∈ q ->
     merged_ <$> turns (store s') !! turn = merged_ <$> turns (store s) !! turn) ->
  (forall c, c ∈ waiting q s -> conds (store s') !! c = conds (store s) !! c) ->
  callers_ok q s -> callers_ok q s'.
Proof.
  intros Hm Hc [Hnd Hbl]. unfold callers_ok. rewrite (waiting_same_merged _ _ _ Hm).
  split; [done|]. intros c Hin. rewrite Hc by done. by apply Hbl.
Qed.

Lemma unblock_callers_other (l : list ((World -> World) * nat)) (m : Store World) c :
  c ∉ l.*2 -> conds (unblock_callers l m) !! c = conds m !! c.
Proof.
  revert m. induction l as [|e l IH]; intros m Hnin; [done|].
  cbn in Hnin. apply not_elem_of_cons in Hnin as [Hne Hnin].
  change (unblock_callers (e :: l) m)
    with (unblock_callers l (on_cond BlockingCondition.Unblock e.2 m)).
  rewrite IH by done. cbn. by rewrite lookup_alter_ne.
Qed.

Lemma fmap_merged_frame (f : ExclusiveTurn.t World -> ExclusiveTurn.t World)
    (o : option (ExclusiveTurn.t World)) :
  (forall tr, merged_ (f tr) = merged_ tr) -> merged_ <$> (f <$> o) = merged_ <$> o.
Proof. intros Hf. destruct o as [tr|]; [|done]. cbn. by rewrite Hf. Qed.

Lemma reachable_callers_ok q s : reachable q s -> callers_ok q s.
Proof.
  induction 1 as [|q s p eim flags Hr IH Hp|q s p Hr IH Hp|q s turn eim flags Hr IH Hnin Hl
                 |q s f Hr IH|q s caller s' Hr IH Hleave|q s turn Hr IH Hin Hrun];
    try (pose proof (reachable_chain_ok _ _ Hr) as Hok).
  - split; [apply NoDup_nil_2|]. intros c Hc. by apply elem_of_nil in Hc.
  - revert IH. apply callers_ok_frame; [|done].
    intros turn Hin. cbn. rewrite lookup_insert_ne; [done|]. intros ->.
    destruct (chain_ok_member _ _ _ Hok Hin) as (? & ? & ? & ? & _). congruence.
  - revert IH. apply callers_ok_frame; [|done].
    intros turn Hin. cbn. rewrite lookup_delete_ne; [done|]. by intros ->.
  - assert (Hm : forall x, merged_ <$> turns (store (StartTurn_locked turn s)) !! x
                           = merged_ <$> turns (store s) !! x).
    { intros x. unfold StartTurn_locked. cbn [store].
      destruct (tail_ s) as [p|]; [|done]. rewrite Append_turns, !lookup_alter.
      repeat case_decide; subst; by rewrite ?fmap_merged_frame. }
    destruct IH as [Hnd Hbl]. unfold callers_ok. rewrite waiting_app.
    rewrite (waiting_same_merged q s) by (intros; apply Hm).
    assert (Hnil : waiting [turn] (StartTurn_locked turn s) = []).
    { unfold waiting. cbn [flat_map]. specialize (Hm turn). rewrite Hl in Hm.
      destruct (turns (store (StartTurn_locked turn s)) !! turn) as [tr'|]; [|done].
      cbn in Hm. injection Hm as ->. done. }
    rewrite Hnil, app_nil_r. split; [done|]. intros c Hc.
    assert (Hcs : conds (store (StartTurn_locked turn s)) = conds (store s)).
    { unfold StartTurn_locked. cbn [store]. by destruct (tail_ s). }
    rewrite Hcs. by apply Hbl.
  - destruct (TryMerge_call_cases f s) as [->|(p & tr & Htl & Hp & _ & _ & ->)]; [done|].
    destruct Hok as (Ht & Hndq & _). rewrite Htl in Ht. symmetry in Ht.
    apply last_Some in Ht as [q' ->].
    apply NoDup_app in Hndq as (_ & Hdisj & _).
    assert (Hpq' : p ∉ q').
    { intros Hin. apply (Hdisj p Hin). apply list_elem_of_here. }
    set (s' := ExclusiveTurnManager.mk (Some p) _).
    assert (Hw : waiting (q' ++ [p]) s' = waiting (q' ++ [p]) s ++ [new_caller s]).
    { rewrite !waiting_app, <- app_assoc. f_equal.
      - apply waiting_same_merged. intros x Hx. subst s'. cbn.
        rewrite lookup_insert_ne; [done|]. by intros ->.
      - unfold waiting. subst s'. cbn. rewrite lookup_insert_eq, Hp. cbn.
        by rewrite !app_nil_r, fmap_app. }
    destruct IH as [Hnd Hbl].
    assert (Hfresh : new_caller s ∉ waiting (q' ++ [p]) s).
    { intros Hin. apply Hbl in Hin. by rewrite new_caller_fresh in Hin. }
    unfold callers_ok. rewrite Hw. split.
    + apply NoDup_app. split; [done|]. split; [|apply NoDup_singleton].
      intros c Hc Hc'. apply list_elem_of_singleton in Hc'. by subst.
    + intros c Hc. apply elem_of_app in Hc as [Hc|Hc].
      * subst s'. cbn. rewrite lookup_insert_ne; [by apply Hbl|]. by intros <-.
      * apply list_elem_of_singleton in Hc as ->. subst s'. cbn. by rewrite lookup_insert_eq.
  - apply TryMerge_leave_inv in Hleave as [-> Hc].
    apply (callers_ok_frame q s); [done| |done].
    intros c Hin. cbn. rewrite lookup_delete_ne; [done|]. intros <-.
    destruct IH as [_ Hbl]. apply Hbl in Hin. congruence.
  - destruct (chain_ok_running _ _ _ Hok Hin Hrun) as (q' & -> & Hnin).
    rewrite filter_cons_False by (intros H; by apply H).
    rewrite filter_ne_not_in by done.
    destruct (chain_ok_member _ _ _ Hok Hin) as (i & tr & _ & Hl & _ & _).
    destruct IH as [Hnd Hbl].
    change (turn :: q') with ([turn] ++ q') in Hnd, Hbl. rewrite waiting_app in Hnd, Hbl.
    assert (Hhead : waiting [turn] s = (merged_ tr).*2).
    { unfold waiting. cbn. by rewrite Hl, app_nil_r. }
    rewrite Hhead in Hnd, Hbl. apply NoDup_app in Hnd as (_ & Hdisj & Hnd').
    assert (Hm : forall x, merged_ <$> turns (store (EndTurn turn s).1) !! x
                           = merged_ <$> turns (store s) !! x).
    { intros x. unfold EndTurn. rewrite (UnblockSuccessors_spec _ _ _ Hl).
      destruct (successor_ tr) as [y|]; cbn; rewrite unblock_callers_turns; [|done].
      rewrite lookup_alter. case_decide; subst; by rewrite ?fmap_merged_frame. }
    unfold callers_ok. rewrite (waiting_same_merged q' s) by (intros; apply Hm).
    split; [done|]. intros c Hc.
    assert (Hcs : conds (store (EndTurn turn s).1) !! c = conds (store s) !! c).
    { unfold EndTurn. rewrite (UnblockSuccessors_spec _ _ _ Hl).
      destruct (successor_ tr) as [y|]; cbn; apply unblock_callers_other;
        intros Hc'; by apply (Hdisj c Hc'). }
    rewrite Hcs. apply Hbl, elem_of_app. by right.
Qed.

Lemma running_iff_oldest q s :
  reachable q s ->
  tail_ s = last q
  /\ forall turn, turn ∈ q -> (StartTurn_leave turn s = true <-> q !! 0%nat = Some turn).
Proof.
  intros Hr. pose proof (reachable_chain_ok _ _ Hr) as Hok.
  split; [apply Hok|]. intros turn Hin. split.
  - intros Hrun. by destruct (chain_ok_running _ _ _ Hok Hin Hrun) as (q' & -> & _).
  - intros H0. destruct Hok as (_ & _ & Hq). destruct (Hq _ _ H0) as (tr & Hl & Hb & _).
    unfold StartTurn_leave, ExclusiveTurn.WaitForUnblock, BlockingCondition.WaitForUnblock.
    by rewrite Hl, Hb.
Qed.

(** X9. One turn at a time.  In every state the manager reaches under
    the protocol, [tail_] is the turn started last (null when no turn is
    active), and among the started turns exactly the oldest gets through
    [WaitForUnblock]. *)
Theorem X9_only_the_oldest_turn_runs q s :
  reachable q s ->
  tail_ s = last q
  /\ forall turn, turn ∈ q -> (StartTurn_leave turn s = true <-> q !! 0%nat = Some turn).
Proof. exact (running_iff_oldest q s). Qed.

(** X10. Turns run in the order of their [StartTurn].  When the running
    turn ends, the turn started next gets through [WaitForUnblock], the
    turns started after it stay blocked, and [tail_] is left as it is. *)
Theorem X10_EndTurn_hands_over_in_start_order q s h x :
  reachable (h :: x :: q) s ->
  let s' := (EndTurn h s).1 in
  StartTurn_leave x s' = true
  /\ (forall y, y ∈ q -> StartTurn_leave y s' = false)
  /\ tail_ s' = tail_ s.
Proof.
  intros Hr. cbn zeta.
  destruct (running_iff_oldest _ _ Hr) as [Htl Hrun].
  assert (Hh : StartTurn_leave h s = true) by (apply Hrun; [apply list_elem_of_here|done]).
  pose proof (reach_end _ _ h Hr (list_elem_of_here _ _) Hh) as Hr'.
  pose proof (reachable_chain_ok _ _ Hr) as (_ & Hnd & _).
  apply NoDup_cons in Hnd as [Hnin _].
  rewrite filter_cons_False in Hr' by (intros H; by apply H).
  rewrite filter_ne_not_in in Hr' by done.
  destruct (running_iff_oldest _ _ Hr') as [Htl' Hrun'].
  split; [by apply Hrun'; [apply list_elem_of_here|]|]. split.
  - intros y Hy. destruct (StartTurn_leave y (EndTurn h s).1) eqn:Hl; [|done].
    apply Hrun' in Hl; [|by apply list_elem_of_further].
    injection Hl as ->. pose proof (reachable_chain_ok _ _ Hr') as (_ & Hnd' & _).
    by apply NoDup_cons in Hnd' as [? _].
  - rewrite Htl', Htl. by rewrite last_cons_cons.
Qed.

(** X11. [TryMerge] adds to the tail only, and only while the tail has
    not begun to run: under the protocol a call of [TryMerge] leaves the
    running turn and every started turn other than the tail exactly as
    they are, so no closure is added to a turn after its merged inputs
    may have been run. *)
Theorem X11_TryMerge_never_touches_the_running_turn q s (f : World -> World) turn :
  reachable q s ->
  turn ∈ q ->
  q !! 0%nat = Some turn \/ tail_ s <> Some turn ->
  turns (store (TryMerge_call f s)) !! turn = turns (store s) !! turn.
Proof.
  intros Hr Hin Hcase.
  destruct (TryMerge_call_cases f s) as [->|(p & tr & Htl & Hl & _ & Hb & ->)]; [done|].
  cbn. rewrite lookup_insert_ne; [done|]. intros ->.
  destruct Hcase as [H0|Hne]; [|congruence].
  pose proof (reachable_chain_ok _ _ Hr) as (_ & _ & Hq).
  destruct (Hq _ _ H0) as (tr' & Hl' & Hb' & _). rewrite Hl in Hl'. injection Hl' as <-.
  by rewrite Hb in Hb'.
Qed.

(** X12. Merged callers wait for the end of their turn.  Under the
    protocol the conditions recorded in the merge lists of the started
    turns are pairwise distinct; a caller recorded on a started turn does
    not get through its wait; and once [EndTurn] has run on that turn it
    does, [TryMerge] returning [true] and destroying the condition. *)
Theorem X12_merged_callers_wait_for_their_turn q s turn tr c :
  reachable q s ->
  turn ∈ q ->
  turns (store s) !! turn = Some tr ->
  c ∈ (merged_ tr).*2 ->
  NoDup (waiting q s)
  /\ TryMerge_leave true c s = None
  /\ TryMerge_leave true c (EndTurn turn s).1
     = Some (true, free_caller c (EndTurn turn s).1).
Proof.
  intros Hr Hin Hl Hc. destruct (reachable_callers_ok _ _ Hr) as [Hnd Hbl].
  assert (Hw : c ∈ waiting q s) by (apply waiting_elem; by exists turn, tr).
  pose proof (Hbl c Hw) as Hcb.
  split; [done|]. split; [by rewrite (TryMerge_leave_spec _ _ _ Hcb)|].
  assert (Hc' : conds (store (EndTurn turn s).1) !! c = Some (BlockingCondition.mk false)).
  { unfold EndTurn. rewrite (UnblockSuccessors_spec _ _ _ Hl).
    destruct (successor_ tr); cbn; apply unblock_callers_wakes; by rewrite ?Hcb. }
  by rewrite (TryMerge_leave_spec _ _ _ Hc').
Qed.

(** X13. A turn that meets no other turn leaves the manager as it found
    it.  With no tail, [StartTurn] on a turn with no successor and an
    empty merge list changes [tail_] only and gets through
    [WaitForUnblock]; [EndTurn] then wakes nobody and restores the
    manager. *)
Theorem X13_uncontended_turn_round_trip s turn tr :
  tail_ s = None ->
  turns (store s) !! turn = Some tr ->
  merged_ tr = [] ->
  successor_ tr = None ->
  BlockingCondition.IsBlocked (blockCondition_ tr) = false ->
  StartTurn_leave turn (StartTurn_locked turn s) = true
  /\ EndTurn turn (StartTurn_locked turn s) = (s, []).
Proof.
  intros Htl Hl Hm Hs Hb. unfold StartTurn_locked. rewrite Htl. split.
  - unfold StartTurn_leave, ExclusiveTurn.WaitForUnblock, BlockingCondition.WaitForUnblock.
    cbn [store]. unfold BlockingCondition.IsBlocked in Hb. by rewrite Hl, Hb.
  - unfold EndTurn. cbn [store tail_]. rewrite (UnblockSuccessors_spec _ _ _ Hl), Hs, Hm.
    cbn. rewrite decide_True by done. destruct s as [tl m]. cbn in *. by subst.
Qed.

(** X14. What [EndTurn] never does.  On a live turn, it removes no turn
    and no condition, changes no [isMergeable_], [successor_] or
    [merged_], and blocks nothing: a turn or condition that is blocked
    afterwards was blocked before. *)
Theorem X14_EndTurn_blocks_nothing_and_keeps_merge_lists s turn tr :
  turns (store s) !! turn = Some tr ->
  let s' := (EndTurn turn s).1 in
  (forall x tx, turns (store s) !! x = Some tx ->
     exists tx', turns (store s') !! x = Some tx'
       /\ isMergeable_ tx' = isMergeable_ tx
       /\ successor_ tx' = successor_ tx
       /\ merged_ tx' = merged_ tx
       /\ (BlockingCondition.IsBlocked (blockCondition_ tx') = true ->
           BlockingCondition.IsBlocked (blockCondition_ tx) = true))
  /\ (forall c bc, conds (store s) !! c = Some bc ->
        exists bc', conds (store s') !! c = Some bc'
          /\ (BlockingCondition.IsBlocked bc' = true -> BlockingCondition.IsBlocked bc = true)).
Proof.
  intros Hl. cbn zeta. unfold EndTurn. rewrite (UnblockSuccessors_spec _ _ _ Hl).
  assert (Hconds : forall c bc, conds (store s) !! c = Some bc ->
            exists bc', conds (unblock_callers (merged_ tr) (store s)) !! c = Some bc'
              /\ (BlockingCondition.IsBlocked bc' = true -> BlockingCondition.IsBlocked bc = true)).
  { intros c bc Hc. destruct (decide (c ∈ (merged_ tr).*2)) as [Hin|Hnin].
    - exists (BlockingCondition.mk false). split; [|done].
      apply unblock_callers_wakes; [done|by rewrite Hc].
    - exists bc. split; [|done]. by rewrite unblock_callers_other. }
  destruct (successor_ tr) as [y|]; cbn [fst store]; (split; [|exact Hconds]).
  - intros x tx Hx. cbn. rewrite unblock_callers_turns.
    destruct (decide (y = x)) as [->|Hne].
    + rewrite lookup_alter_eq, Hx. eexists. split; [reflexivity|]. by cbn.
    + rewrite lookup_alter_ne by done. by exists tx.
  - intros x tx Hx. rewrite unblock_callers_turns. by exists tx.
Qed.

End ProtocolFacts.

(* ===================================================================== *)
(** * The detach queue of a turn *)
(* ===================================================================== *)

Section DetachQueueFacts.

(** X15. The detach queue is first in, first out.  On a turn that was
    constructed and then had the observers [obs] queued one after the
    other, finalization calls [Unregister] on exactly [obs], in queueing
    order, whatever the registry; the turn's id is the one given at
    construction. *)
Theorem X15_detach_queue_round_trip (id flags : Z) (obs : list nat) :
  let turn := fold_left (fun t o => TurnBase.QueueForDetach o t) obs (TurnBase.ctor id flags) in
  TurnBase.Unregister_calls turn = obs
  /\ TurnBase.Id turn = id
  /\ forall (R : Type) (Unregister : nat -> R -> R) (r : R),
       TurnBase.detachObservers Unregister turn r = fold_left (fun r o => Unregister o r) obs r.
Proof.
  cbn zeta.
  assert (Hq : forall (l : list nat) (t : TurnBase.t),
            TurnBase.queued (fold_left (fun t o => TurnBase.QueueForDetach o t) l t)
            = TurnBase.queued t ++ l
            /\ TurnBase.Id (fold_left (fun t o => TurnBase.QueueForDetach o t) l t)
               = TurnBase.Id t).
  { induction l as [|o l IH]; intros t; cbn [fold_left]; [by rewrite app_nil_r|].
    destruct (IH (TurnBase.QueueForDetach o t)) as [-> ->].
    by rewrite queued_QueueForDetach, <- app_assoc. }
  destruct (Hq obs (TurnBase.ctor id flags)) as [Hqueued Hid].
  split; [by rewrite Unregister_calls_queued, Hqueued|]. split; [done|].
  intros R Unregister r. by rewrite detachObservers_fold, Hqueued.
Qed.

End DetachQueueFacts.

(* ===================================================================== *)
(** * The further properties at the scenarios *)
(* ===================================================================== *)

Section ProtocolScenarioFacts.
Import ExclusiveTurn ExclusiveTurnManager Protocol Scenario ProtocolScenario EventOpSpec.
#[local] Existing Instance left_to_right.

Lemma reachable_r2 : reachable [] r2.
Proof.
  apply reach_construct; [|reflexivity]. apply reach_construct; [|reflexivity]. apply reach_init.
Qed.

Lemma reachable_r3 : reachable [1%nat] r3.
Proof.
  refine (reach_start [] r2 1%nat 1 1 reachable_r2 _ _); [apply not_elem_of_nil|reflexivity].
Qed.

Lemma reachable_r4 : reachable [1%nat; 2%nat] r4.
Proof.
  refine (reach_start [1%nat] r3 2%nat 1 1 reachable_r3 _ _); [|reflexivity].
  intros H. apply list_elem_of_singleton in H. discriminate.
Qed.

Lemma reachable_r5 : reachable [1%nat; 2%nat] r5.
Proof. exact (reach_merge _ _ S reachable_r4). Qed.

Lemma reachable_r7 : reachable [1%nat; 2%nat; 3%nat] r7.
Proof.
  refine (reach_start [1%nat; 2%nat] r6 3%nat 1 0 _ _ _).
  - apply reach_construct; [exact reachable_r5|]. vm_compute. reflexivity.
  - intros H. apply elem_of_cons in H as [H|H]; [discriminate|].
    apply list_elem_of_singleton in H. discriminate.
  - vm_compute. reflexivity.
Qed.

Example r5_turn2 : turns (store r5) !! 2%nat = Some turn2_merged.
Proof. vm_compute. reflexivity. Qed.

(** The events of a merge come in the order of the pack expansion. *)
Example merge_two_left_to_right :
  events_of (expansion:=left_to_right) merge_two turn5 two_sources = [1; 2; 3].
Proof. vm_compute. reflexivity. Qed.

Example merge_two_right_to_left :
  events_of (expansion:=right_to_left) merge_two turn5 two_sources = [3; 1; 2]
  /\ (EventOpNode.Tick (expansion:=right_to_left) turn5 (EventOpNode.ctor merge_two).1
        two_sources).2 = [OnNodePulse 5].
Proof. vm_compute. split; reflexivity. Qed.

(** X4 at the merge op of the scenario, read in turn 6: both nodes hold
    events of earlier turns. *)
Lemma X4_stale_merge_witness :
  let '(n', _, calls) := EventOpNode.Tick turn6 (EventOpNode.ctor merge_op).1 nodes5 in
  EventStreamNode.events_ (EventOpNode.base n') = [] /\ calls = [OnNodeIdlePulse 6].
Proof.
  apply (X4_Tick_over_stale_nodes_idles turn6 (EventOpNode.ctor merge_op).1 nodes5).
  intros p d Hp Hl Hid. cbn in Hp.
  apply elem_of_cons in Hp as [->|Hp].
  - vm_compute in Hl. injection Hl as <-. vm_compute in Hid. discriminate.
  - apply list_elem_of_singleton in Hp as ->.
    vm_compute in Hl. injection Hl as <-. vm_compute in Hid. discriminate.
Defined.

(** X5 at the source that published 3 and 7 in turn 5. *)
Lemma X5_published_source_witness :
  0 <= TurnBase.Id turn5 < 2 ^ 32
  /\ (let '(n', _, calls) := EventOpNode.Tick turn5 reader source_nodes in
      EventStreamNode.events_ (EventOpNode.base n')
      = EventStreamNode.events_ (EventSourceNode.base staged_source)
      /\ calls = [OnNodePulse (TurnBase.Id turn5)])
  /\ (let '(n', nodes', calls) := EventOpNode.Tick turn6 reader source_nodes in
      EventStreamNode.events_ (EventOpNode.base n') = []
      /\ calls = [OnNodeIdlePulse (TurnBase.Id turn6)]
      /\ nodes' !! 10%nat = Some (EventStreamNode.mk [] (to_uint (TurnBase.Id turn6)))).
Proof.
  assert (Hid : 0 <= TurnBase.Id turn5 < 2 ^ 32) by (cbn; lia).
  split; [exact Hid|].
  apply (X5_published_events_reach_dependents_in_turn turn5 turn6 staged_source reader
           source_nodes 10%nat Hid); try reflexivity.
  - vm_compute. discriminate.
  - right. reflexivity.
  - vm_compute. discriminate.
Defined.

(** X6 at a transform fused with the filter below it. *)
Lemma X6_fused_transform_witness :
  0 <= TurnBase.Id turn5 < 2 ^ 32
  /\ (let below := EventOpNode.Tick turn5
                     (EventOpNode.ctor (EventFilterOp Z.even (NodeHolder 10))).1 nodes5 in
      EventStreamNode.events_
        (EventOpNode.base
           (EventOpNode.Tick turn5
              (EventOpNode.ctor (EventTransformOp (Z.mul 2) (NodeHolder 20))).1
              (<[20%nat := EventOpNode.base below.1.1]> below.1.2)).1.1)
      = EventStreamNode.events_
          (EventOpNode.base
             (EventOpNode.Tick turn5
                (EventOpNode.ctor
                   (EventTransformOp (Z.mul 2) (EventFilterOp Z.even (NodeHolder 10)))).1
                nodes5).1.1)).
Proof.
  assert (Hid : 0 <= TurnBase.Id turn5 < 2 ^ 32) by (cbn; lia).
  split; [exact Hid|].
  exact (proj1 (proj2 (X6_fused_op_collects_the_same turn5
           (EventFilterOp Z.even (NodeHolder 10)) nodes5 20%nat Z.even (Z.mul 2) Hid))).
Defined.

(** X9 with turn 1 running and turn 2 waiting behind it. *)
Lemma X9_two_turns_witness :
  reachable [1%nat; 2%nat] r5
  /\ tail_ r5 = last [1%nat; 2%nat]
  /\ forall turn, turn ∈ [1%nat; 2%nat] ->
       (StartTurn_leave turn r5 = true <-> [1%nat; 2%nat] !! 0%nat = Some turn).
Proof.
  split; [exact reachable_r5|].
  exact (X9_only_the_oldest_turn_runs [1%nat; 2%nat] r5 reachable_r5).
Defined.

(** X10 with three turns started: the end of turn 1 lets turn 2 run and
    keeps turn 3 blocked. *)
Lemma X10_three_turns_witness :
  reachable [1%nat; 2%nat; 3%nat] r7
  /\ StartTurn_leave 2 (EndTurn 1 r7).1 = true
  /\ (forall y, y ∈ [3%nat] -> StartTurn_leave y (EndTurn 1 r7).1 = false)
  /\ tail_ (EndTurn 1 r7).1 = tail_ r7.
Proof.
  split; [exact reachable_r7|].
  exact (X10_EndTurn_hands_over_in_start_order [3%nat] r7 1%nat 2%nat reachable_r7).
Defined.

(** X11 at a merge made while turn 1 runs and turn 2 waits. *)
Lemma X11_running_turn_witness :
  reachable [1%nat; 2%nat] r4
  /\ 1%nat ∈ [1%nat; 2%nat]
  /\ turns (store (TryMerge_call S r4)) !! 1%nat = turns (store r4) !! 1%nat.
Proof.
  assert (Hin : 1%nat ∈ [1%nat; 2%nat]) by apply list_elem_of_here.
  split; [exact reachable_r4|]. split; [exact Hin|].
  exact (X11_TryMerge_never_touches_the_running_turn [1%nat; 2%nat] r4 S 1%nat
           reachable_r4 Hin (or_introl eq_refl)).
Defined.

(** X12 at the caller merged into turn 2. *)
Lemma X12_merged_caller_witness :
  reachable [1%nat; 2%nat] r5
  /\ turns (store r5) !! 2%nat = Some turn2_merged
  /\ NoDup (waiting [1%nat; 2%nat] r5)
  /\ TryMerge_leave true 0%nat r5 = None
  /\ TryMerge_leave true 0%nat (EndTurn 2 r5).1
     = Some (true, free_caller 0%nat (EndTurn 2 r5).1).
Proof.
  assert (Hin : 2%nat ∈ [1%nat; 2%nat]) by (apply list_elem_of_further, list_elem_of_here).
  assert (Hc : 0%nat ∈ (merged_ turn2_merged).*2) by apply list_elem_of_here.
  split; [exact reachable_r5|]. split; [exact r5_turn2|].
  exact (X12_merged_callers_wait_for_their_turn [1%nat; 2%nat] r5 2%nat turn2_merged 0%nat
           reachable_r5 Hin r5_turn2 Hc).
Defined.

(** X13 at turn 1 of the first scenario, which meets no other turn. *)
Lemma X13_single_turn_witness :
  tail_ s0 = None
  /\ turns (store s0) !! 1%nat = Some new_turn
  /\ StartTurn_leave 1 (StartTurn_locked 1 s0) = true
  /\ EndTurn 1 (StartTurn_locked 1 s0) = (s0, []).
Proof.
  split; [reflexivity|]. split; [reflexivity|].
  exact (X13_uncontended_turn_round_trip s0 1%nat new_turn
           eq_refl eq_refl eq_refl eq_refl eq_refl).
Defined.

(** X14 at the end of the turn that holds three merged callers. *)
Lemma X14_merged_turn_witness :
  turns (store s3) !! 2%nat = Some merged_turn
  /\ (forall x tx, turns (store s3) !! x = Some tx ->
        exists tx', turns (store (EndTurn 2 s3).1) !! x = Some tx'
          /\ isMergeable_ tx' = isMergeable_ tx
          /\ successor_ tx' = successor_ tx
          /\ merged_ tx' = merged_ tx
          /\ (BlockingCondition.IsBlocked (blockCondition_ tx') = true ->
              BlockingCondition.IsBlocked (blockCondition_ tx) = true)).
Proof.
  split; [exact s3_turn|].
  exact (proj1 (X14_EndTurn_blocks_nothing_and_keeps_merge_lists s3 2%nat merged_turn s3_turn)).
Defined.

End ProtocolScenarioFacts.
